(** * godynamo: statement parsing, table creation, transactions and result rows

    A shallow embedding of the parts of the driver that turn the options of a
    statement into a request ([stmt.go], [stmt_table.go]), of the transaction
    state of a connection ([conn.go]) and of the paginated result rows
    ([stmt.go]), with the properties the specification states about them.

    Go strings are byte strings: they are modelled as [string], whose
    characters are the 256 bytes.  Library functions of Go ([regexp],
    [strings], [strconv], [unicode/utf8]) are modelled by their documented
    behaviour. *)

From Stdlib Require Import ZArith NArith Ascii String Lia.
From stdpp Require Import base option list strings pretty gmap sorting.

Set Warnings "-register-all,-clear-no-such-hyp".

(** ** Outcomes of a run

    A Go function either returns, panics (here: an index or a slice bound out
    of range, a nil dereference), or does not return.  [OutOfFuel] stands for
    the last one in the functions that loop. *)

Inductive run (A : Type) : Type :=
| Done (a : A)
| Panicked
| OutOfFuel.
Arguments Done {A} a.
Arguments Panicked {A}.
Arguments OutOfFuel {A}.

Definition run_bind {A B : Type} (m : run A) (f : A → run B) : run B :=
  match m with
  | Done a => f a
  | Panicked => Panicked
  | OutOfFuel => OutOfFuel
  end.

Notation "x ←← m ;; k" := (run_bind m (fun x => k))
  (at level 100, m at next level, right associativity).

(** ** Go's [unicode/utf8] and [strings] *)

Module utf8.

Definition byte (c : ascii) : N := N_of_ascii c.

Definition RuneError : N := 65533.

Definition between (lo hi b : N) : bool := (lo <=? b)%N && (b <=? hi)%N.

(** What the second byte of a sequence led by [b0] may be, and the length
    of the sequence ([first] and [acceptRanges] of the Go library). *)
Definition accept (b0 : N) : option (nat * N * N) :=
  if between 194 223 b0 then Some (2, 128%N, 191%N)
  else if (b0 =? 224)%N then Some (3, 160%N, 191%N)
  else if between 225 236 b0 then Some (3, 128%N, 191%N)
  else if (b0 =? 237)%N then Some (3, 128%N, 159%N)
  else if between 238 239 b0 then Some (3, 128%N, 191%N)
  else if (b0 =? 240)%N then Some (4, 144%N, 191%N)
  else if between 241 243 b0 then Some (4, 128%N, 191%N)
  else if (b0 =? 244)%N then Some (4, 128%N, 143%N)
  else None.

(** [DecodeRuneInString]: the first rune of [s] and what follows it; a byte
    that starts no valid sequence is [RuneError] of width one. *)
Definition DecodeRuneInString (s : string) : option (N * string) :=
  match s with
  | EmptyString => None
  | String c0 s0 =>
    let b0 := byte c0 in
    let invalid := Some (RuneError, s0) in
    if (b0 <? 128)%N then Some (b0, s0)
    else match accept b0 with
    | None => invalid
    | Some (sz, lo, hi) =>
      match s0 with
      | EmptyString => invalid
      | String c1 s1 =>
        let b1 := byte c1 in
        if negb (between lo hi b1) then invalid
        else if Nat.leb sz 2
        then Some (N.lor (N.shiftl (N.land b0 31) 6) (N.land b1 63), s1)
        else match s1 with
        | EmptyString => invalid
        | String c2 s2 =>
          let b2 := byte c2 in
          if negb (between 128 191 b2) then invalid
          else if Nat.leb sz 3
          then Some (N.lor (N.shiftl (N.land b0 15) 12)
                       (N.lor (N.shiftl (N.land b1 63) 6) (N.land b2 63)), s2)
          else match s2 with
          | EmptyString => invalid
          | String c3 s3 =>
            let b3 := byte c3 in
            if negb (between 128 191 b3) then invalid
            else Some (N.lor (N.shiftl (N.land b0 7) 18)
                         (N.lor (N.shiftl (N.land b1 63) 12)
                            (N.lor (N.shiftl (N.land b2 63) 6) (N.land b3 63))), s3)
          end
        end
      end
    end
  end.

End utf8.

Module strings.

Definition len (s : string) : nat := String.length s.

(** [s[n:]]; Go panics when [n] is beyond the length. *)
Fixpoint drop (n : nat) (s : string) : string :=
  match n, s with
  | O, _ => s
  | S n', String _ s' => drop n' s'
  | S _, EmptyString => EmptyString
  end.

Definition slice_from (s : string) (n : nat) : run string :=
  if Nat.leb n (len s) then Done (drop n s) else Panicked.

(** [s[i:j]] for [i <= j <= len s]. *)
Definition slice (s : string) (i j : nat) : string := substring i (j - i) s.

Definition asciiSpace (c : ascii) : bool :=
  let b := utf8.byte c in
  (b =? 9)%N || (b =? 10)%N || (b =? 11)%N || (b =? 12)%N || (b =? 13)%N || (b =? 32)%N.

Fixpoint TrimLeftSpace (s : string) : string :=
  match s with
  | String c s' => if asciiSpace c then TrimLeftSpace s' else s
  | EmptyString => EmptyString
  end.

(** [TrimSpace] on the strings it is applied to here: the captured groups
    of a match of the option patterns and the pieces of them.  Those hold
    ASCII bytes and the runes U+017F and U+212A only, so the white space
    to trim is the ASCII one. *)
Definition TrimSpace (s : string) : string :=
  String.rev (TrimLeftSpace (String.rev (TrimLeftSpace s))).

Definition upper_byte (c : ascii) : ascii :=
  let b := utf8.byte c in
  if utf8.between 97 122 b then ascii_of_N (b - 32) else c.

(** [ToUpper], on the same strings as [TrimSpace]: ASCII letters are
    upper-cased, the long s U+017F (bytes C5 BF) maps to S, and the Kelvin
    sign U+212A is its own upper case. *)
Fixpoint ToUpper (s : string) : string :=
  match s with
  | EmptyString => EmptyString
  | String c s' =>
    match s' with
    | String c' s'' =>
      if ((utf8.byte c =? 197)%N && (utf8.byte c' =? 191)%N)%bool
      then String "S"%char (ToUpper s'')
      else String (upper_byte c) (ToUpper s')
    | EmptyString => String (upper_byte c) (ToUpper s')
    end
  end.

Definition HasPrefix (s prefix : string) : bool := String.prefix prefix s.

Definition TrimPrefix (s prefix : string) : string :=
  if HasPrefix s prefix then drop (len prefix) s else s.

Definition TrimSuffix (s suffix : string) : string :=
  String.rev (TrimPrefix (String.rev s) (String.rev suffix)).

(** [Cut s sep]: the text before and after the first [sep] in [s]. *)
Fixpoint Cut (s sep : string) : option (string * string) :=
  if HasPrefix s sep then Some (EmptyString, drop (len sep) s)
  else match s with
  | EmptyString => None
  | String c s' =>
    match Cut s' sep with
    | Some (before, after) => Some (String c before, after)
    | None => None
    end
  end.

(** [SplitN s sep n] for a non-empty [sep] and [n > 0]: at most [n] pieces,
    the last one the unsplit remainder. *)
Fixpoint SplitN (s sep : string) (n : nat) : list string :=
  match n with
  | O => []
  | S O => [s]
  | S n' =>
    match Cut s sep with
    | Some (before, after) => before :: SplitN after sep n'
    | None => [s]
    end
  end.

(** [Split s sep] is [SplitN s sep (-1)], which Go caps at [len s + 1]. *)
Definition Split (s sep : string) : list string := SplitN s sep (S (len s)).

End strings.

(** ** Go's [regexp]

    A backtracking matcher with the leftmost-first semantics of Go's
    [regexp] (the match it returns is the one a backtracking search that
    prefers the left alternative and the longer repetition finds first).
    The input is read rune by rune; positions are byte offsets. *)

Module regexp.

Inductive regex : Type :=
| Eps
| BeginLine                      (* ^ under the flag m *)
| EndLine                        (* $ under the flag m *)
| Rune (p : N → bool)            (* one rune of a class *)
| Cat (r1 r2 : regex)
| Alt (r1 r2 : regex)            (* r1|r2, r1 preferred *)
| Star (r : regex)               (* r*, greedy *)
| Group (i : nat) (r : regex).   (* the i-th capturing group *)

Definition Plus (r : regex) : regex := Cat r (Star r).
Definition Opt (r : regex) : regex := Alt r Eps.

(** The state of a match in progress: whether the position is at the
    beginning of a line, the text still to read, the byte offset, and the
    groups captured so far (start and end offsets). *)
Record mstate : Type := MState {
  atBol : bool;
  rest : string;
  pos : nat;
  caps : gmap nat (nat * nat);
}.

Definition width (s s' : string) : nat := strings.len s - strings.len s'.

Definition step (p : N → bool) (st : mstate) : option mstate :=
  match utf8.DecodeRuneInString (rest st) with
  | Some (c, rest') =>
    if p c
    then Some (MState (c =? 10)%N rest' (pos st + width (rest st) rest') (caps st))
    else None
  | None => None
  end.

Definition atEol (s : string) : bool :=
  match s with
  | EmptyString => true
  | String c _ => (utf8.byte c =? 10)%N
  end.

(** [exec fuel r st k]: match [r] from [st], then continue with [k]; the
    first success in backtracking order.  An iteration of a star has to
    consume input, which it does in every pattern of this driver; [fuel]
    bounds the number of iterations and is taken beyond the length of the
    text. *)
Fixpoint exec (fuel : nat) (r : regex) (st : mstate)
    (k : mstate → option mstate) {struct r} : option mstate :=
  match r with
  | Eps => k st
  | BeginLine => if atBol st then k st else None
  | EndLine => if atEol (rest st) then k st else None
  | Rune p =>
    match step p st with
    | Some st' => k st'
    | None => None
    end
  | Cat r1 r2 => exec fuel r1 st (fun st1 => exec fuel r2 st1 k)
  | Alt r1 r2 =>
    match exec fuel r1 st k with
    | Some m => Some m
    | None => exec fuel r2 st k
    end
  | Star r1 =>
    (fix star (n : nat) (st : mstate) {struct n} : option mstate :=
       match n with
       | O => k st
       | S n' =>
         match exec fuel r1 st
                 (fun st1 => if Nat.ltb (pos st) (pos st1) then star n' st1 else None) with
         | Some m => Some m
         | None => k st
         end
       end) fuel st
  | Group i r1 =>
    exec fuel r1 st
      (fun st1 => k (MState (atBol st1) (rest st1) (pos st1)
                       (<[i := (pos st, pos st1)]> (caps st1))))
  end.

(** The leftmost match: the first offset from which [re] matches. *)
Fixpoint search (fuel : nat) (re : regex) (bol : bool) (s : string) (p : nat)
    : option (nat * mstate) :=
  match exec fuel re (MState bol s p ∅) Some with
  | Some m => Some (p, m)
  | None =>
    match s with
    | EmptyString => None
    | String c s' => search fuel re (utf8.byte c =? 10)%N s' (S p)
    end
  end.

Definition group (text : string) (m : mstate) (i : nat) : string :=
  match caps m !! i with
  | Some (b, e) => strings.slice text b e
  | None => EmptyString
  end.

(** [FindStringSubmatch] of a pattern with [n] groups: the text of the
    leftmost match followed by the texts of its groups, or nil. *)
Definition FindStringSubmatch (re : regex) (n : nat) (text : string)
    : option (list string) :=
  match search (S (strings.len text)) re true text 0 with
  | Some (b, m) =>
    Some (strings.slice text b (pos m) :: (group text m <$> seq 1 n))
  | None => None
  end.

(** *** Character classes, under the flag i (case folding) *)

Definition in_list (l : list N) (c : N) : bool :=
  existsb (N.eqb c) l.

Definition space (c : N) : bool := in_list [9; 10; 12; 13; 32]%N c.

(** [\w] is [0-9A-Za-z_]; folding adds the runes whose simple case folding
    is a letter: U+017F (long s) and U+212A (Kelvin sign). *)
Definition word (c : N) : bool :=
  utf8.between 48 57 c || utf8.between 65 90 c || utf8.between 97 122 c
  || in_list [95; 383; 8490]%N c.

Definition is_letter (c : N) : bool :=
  utf8.between 65 90 c || utf8.between 97 122 c.

(** A literal under folding matches the runes of its folding orbit. *)
Definition lit (a : ascii) (c : N) : bool :=
  let b := utf8.byte a in
  (c =? b)%N
  || (is_letter b && is_letter c && (N.lor c 32 =? N.lor b 32)%N)
  || ((N.lor b 32 =? 115)%N && (c =? 383)%N)
  || ((N.lor b 32 =? 107)%N && (c =? 8490)%N).

Fixpoint lits (s : string) : regex :=
  match s with
  | EmptyString => Eps
  | String a s' => Cat (Rune (lit a)) (lits s')
  end.

End regexp.

(** ** [stmt.go]: the options of a statement *)

Import regexp.

(** [field]: [[\w\-]+] *)
Definition field_class (c : N) : bool := word c || (c =? 45)%N.
Definition field : regex := Plus (Rune field_class).

(** The class of the value of an option: a word rune or one of the
    characters / . * , ; : - and the single and the double quote. *)
Definition value_class (c : N) : bool :=
  word c || in_list [47; 46; 42; 44; 59; 58; 39; 34; 45]%N c.

Definition ws : regex := Rune space.

(** [reWithOpts], with the flags i and m; written with spaces between its
    parts, V being a rune of [value_class]:
    [^ ( \s+ | \s* , \s+ | \s+ , \s* ) WITH \s+ ( [\w\-]+ ) \s* = \s* ( V+ )] *)
Definition reWithOpts : regex :=
  Cat BeginLine
 (Cat (Group 1 (Alt (Plus ws)
               (Alt (Cat (Star ws) (Cat (Rune (lit ",")) (Plus ws)))
                    (Cat (Plus ws) (Cat (Rune (lit ",")) (Star ws))))))
 (Cat (lits "WITH")
 (Cat (Plus ws)
 (Cat (Group 2 field)
 (Cat (Star ws)
 (Cat (Rune (lit "="))
 (Cat (Star ws)
      (Group 3 (Plus (Rune value_class)))))))))).

Abbreviation OptStrings := (list string).

(** [StringAt] and [FirstString] of [OptStrings]. *)
Definition StringAt (s : OptStrings) (i : nat) : string := default "" (s !! i).
Definition FirstString (s : OptStrings) : string := StringAt s 0.

(** Reading a Go map: the zero value when the key is absent. *)
Definition opts (withOpts : gmap string OptStrings) (k : string) : OptStrings :=
  default [] (withOpts !! k).

(** [Stmt]: the query, the number of placeholders, the limit of a SELECT and
    the options.  The connection it points to is passed to the functions
    that use it. *)
Record Stmt : Type := {
  query : string;
  numInput : nat;
  limit : option Z;
  withOpts : gmap string OptStrings;
}.

Definition set_withOpts (s : Stmt) (v : gmap string OptStrings) : Stmt :=
  {| query := query s; numInput := numInput s; limit := limit s; withOpts := v |}.

(** One match of the loop of [parseWithOpts]: the map with the value appended
    to its key. *)
Definition addOpt (matches : list string) (withOpts : gmap string OptStrings)
    : gmap string OptStrings :=
  let k := strings.TrimSpace (strings.ToUpper (StringAt matches 2)) in
  <[k := opts withOpts k ++ [strings.TrimSuffix (strings.TrimSpace (StringAt matches 3)) ","]]>
    withOpts.

Fixpoint parseWithOpts_loop (fuel : nat) (withOptsStr : string)
    (withOpts : gmap string OptStrings) : run (gmap string OptStrings) :=
  match fuel with
  | O => OutOfFuel
  | S fuel' =>
    match FindStringSubmatch reWithOpts 3 withOptsStr with
    | None => Done withOpts
    | Some matches =>
      rest ←← strings.slice_from withOptsStr (strings.len (StringAt matches 0)) ;;
      parseWithOpts_loop fuel' rest (addOpt matches withOpts)
    end
  end.

(** [Stmt.parseWithOpts]: the map it stores in [withOpts]; the error it
    returns is always nil. *)
Definition parseWithOpts (withOptsStr : string) : run (gmap string OptStrings) :=
  parseWithOpts_loop (S (strings.len withOptsStr)) withOptsStr ∅.


(** ** Errors

    A Go [error] is [option error], nil being [None].  The sentinel errors of
    the package are compared by identity and have a constructor each; the
    errors made by [fmt.Errorf] and [errors.New] carry their message; an
    error of the remote service carries its code. *)

Inductive error : Type :=
| Errorf (msg : string)
| ErrInTx
| ErrInvalidTxStage
| ErrNoTx
| ErrTxCommitting
| ErrTxRollingBack
| EOF
| ApiError (code : string) (msg : string)
| TransportError (msg : string).

#[global] Instance error_eq_dec : EqDecision error.
Proof. solve_decision. Defined.

(** [err.Error()] *)
Definition Error (e : error) : string :=
  match e with
  | Errorf msg => msg
  | ErrInTx => "there is an ongoing transaction, new transaction/statement or fetching result is not allowed"
  | ErrInvalidTxStage => "invalid transaction stage"
  | ErrNoTx => "no transaction is in progress"
  | ErrTxCommitting => "transaction is being committed"
  | ErrTxRollingBack => "transaction is being rolled back"
  | EOF => "EOF"
  | ApiError code msg => code +:+ ": " +:+ msg
  | TransportError msg => msg
  end.

(** Modelled from the spec: [IsAwsError], which is declared outside the files
    at hand.  It tells whether a remote call failed with the named condition
    of the service, such as the resource-already-exists condition
    ResourceInUseException. *)
Definition IsAwsError (err : option error) (awsErrCode : string) : bool :=
  match err with
  | Some (ApiError code _) => bool_decide (code = awsErrCode)
  | _ => false
  end.

(** The verb %s of [fmt] on a slice of strings. *)
Definition fmt_strings (l : list string) : string :=
  "[" +:+ String.concat " " l +:+ "]".

Module strconv.

Definition digit (c : ascii) : option Z :=
  let b := utf8.byte c in
  if utf8.between 48 57 b then Some (Z.of_N b - 48)%Z else None.

Fixpoint digits (s : string) (acc : Z) : option Z :=
  match s with
  | EmptyString => Some acc
  | String c s' =>
    match digit c with
    | Some d => digits s' (10 * acc + d)%Z
    | None => None
    end
  end.

Definition ParseUint (s : string) : option Z :=
  match s with
  | EmptyString => None
  | _ => digits s 0
  end.

(** [ParseInt s 10 64]: the value, or [None] when Go returns an error (no
    digits, a byte that is no digit, a value out of the range of int64). *)
Definition ParseInt (s : string) : option Z :=
  match s with
  | EmptyString => None
  | String c s' =>
    let neg := bool_decide (c = "-"%char) in
    let s1 := if bool_decide (c = "+"%char) || neg then s' else s in
    match ParseUint s1 with
    | Some un =>
      if neg then (if (un <=? 2 ^ 63)%Z then Some (- un)%Z else None)
      else (if (un <? 2 ^ 63)%Z then Some un else None)
    | None => None
    end
  end.

End strconv.

(** ** The remote service

    The client is used through three calls.  What the service answers may
    depend on the calls made before, so each takes the log of the earlier
    calls.  A call returns an output and an error, as in Go. *)

Inductive AttributeValue : Type :=
| AttributeValueMemberB (v : string)
| AttributeValueMemberBOOL (v : bool)
| AttributeValueMemberBS (v : list string)
| AttributeValueMemberL (v : list AttributeValue)
| AttributeValueMemberM (v : list (string * AttributeValue))
| AttributeValueMemberN (v : string)
| AttributeValueMemberNS (v : list string)
| AttributeValueMemberNULL (v : bool)
| AttributeValueMemberS (v : string)
| AttributeValueMemberSS (v : list string).

(** An item, [map[string]types.AttributeValue]. *)
Abbreviation Item := (gmap string AttributeValue).

Inductive ProjectionType : Type :=
| ProjectionTypeKeysOnly
| ProjectionTypeAll
| ProjectionTypeInclude.

Record AttributeDefinition : Type := {
  AttributeName : string;
  AttributeType : string;
}.

Record KeySchemaElement : Type := {
  KeyAttributeName : string;
  KeyType : string;
}.

Record Projection : Type := {
  ProjType : ProjectionType;
  NonKeyAttributes : list string;
}.

Record LocalSecondaryIndex : Type := {
  IndexName : string;
  IndexKeySchema : list KeySchemaElement;
  IndexProjection : Projection;
}.

Inductive BillingMode : Type :=
| BillingModeUnset
| BillingModePayPerRequest.

Record ProvisionedThroughput : Type := {
  ReadCapacityUnits : Z;
  WriteCapacityUnits : Z;
}.

Record CreateTableInput : Type := {
  TableName : string;
  AttributeDefinitions : list AttributeDefinition;
  KeySchema : list KeySchemaElement;
  LocalSecondaryIndexes : list LocalSecondaryIndex;
  InputBillingMode : BillingMode;
  InputProvisionedThroughput : option ProvisionedThroughput;
}.

Record ConsumedCapacity : Type := {
  CapacityTable : string;
  CapacityUnits : Z;
}.

Record ExecuteStatementInput : Type := {
  Statement : string;
  Parameters : list AttributeValue;
  ConsistentRead : option bool;
  InputNextToken : option string;
  Limit : option Z;
}.

Record ExecuteStatementOutput : Type := {
  ResultMetadata : nat;
  OutputConsumedCapacity : option ConsumedCapacity;
  Items : list Item;
  NextToken : option string;
}.

Record ParameterizedStatement : Type := {
  TxStatement : string;
  TxParameters : list AttributeValue;
}.

Record ExecuteTransactionInput : Type := {
  TransactStatements : list ParameterizedStatement;
}.

Record ItemResponse : Type := {
  ResponseItem : Item;
}.

Record ExecuteTransactionOutput : Type := {
  TxResultMetadata : nat;
  TxConsumedCapacity : list ConsumedCapacity;
  Responses : list ItemResponse;
}.

Inductive call : Type :=
| CallCreateTable (input : CreateTableInput)
| CallExecuteStatement (input : ExecuteStatementInput)
| CallExecuteTransaction (input : ExecuteTransactionInput).

Record Client : Type := {
  CreateTable : list call → CreateTableInput → option error;
  ExecuteStatement :
    list call → ExecuteStatementInput → option ExecuteStatementOutput * option error;
  ExecuteTransaction :
    list call → ExecuteTransactionInput → option ExecuteTransactionOutput * option error;
}.

(** Dereferencing a pointer that may be nil. *)
Definition deref {A : Type} (p : option A) : run A :=
  match p with
  | Some a => Done a
  | None => Panicked
  end.

(** [l[i]] *)
Definition index {A : Type} (l : list A) (i : nat) : run A := deref (l !! i).

(** ** [stmt_table.go]: CREATE TABLE *)

Record lsiDef : Type := LsiDef {
  indexName : string;
  fieldName : string;
  fieldType : string;
  projectedFields : string;
}.

(** [StmtCreateTable]; [base] is the embedded [Stmt]. *)
Record StmtCreateTable : Type := {
  base : Stmt;
  tableName : string;
  ifNotExists : bool;
  pkName : string;
  pkType : string;
  skName : string;
  skType : string;
  rcu : Z;
  wcu : Z;
  lsi : list lsiDef;
  withOptsStr : string;
}.

(** Assignments to the fields of a statement. *)
Definition set_base (s : StmtCreateTable) (v : Stmt) : StmtCreateTable :=
  {| base := v; tableName := tableName s; ifNotExists := ifNotExists s;
     pkName := pkName s; pkType := pkType s; skName := skName s;
     skType := skType s; rcu := rcu s; wcu := wcu s; lsi := lsi s;
     withOptsStr := withOptsStr s |}.

Definition set_pkName (s : StmtCreateTable) (v : string) : StmtCreateTable :=
  {| base := base s; tableName := tableName s; ifNotExists := ifNotExists s;
     pkName := v; pkType := pkType s; skName := skName s; skType := skType s;
     rcu := rcu s; wcu := wcu s; lsi := lsi s;
     withOptsStr := withOptsStr s |}.

Definition set_pkType (s : StmtCreateTable) (v : string) : StmtCreateTable :=
  {| base := base s; tableName := tableName s; ifNotExists := ifNotExists s;
     pkName := pkName s; pkType := v; skName := skName s; skType := skType s;
     rcu := rcu s; wcu := wcu s; lsi := lsi s;
     withOptsStr := withOptsStr s |}.

Definition set_skName (s : StmtCreateTable) (v : string) : StmtCreateTable :=
  {| base := base s; tableName := tableName s; ifNotExists := ifNotExists s;
     pkName := pkName s; pkType := pkType s; skName := v; skType := skType s;
     rcu := rcu s; wcu := wcu s; lsi := lsi s;
     withOptsStr := withOptsStr s |}.

Definition set_skType (s : StmtCreateTable) (v : string) : StmtCreateTable :=
  {| base := base s; tableName := tableName s; ifNotExists := ifNotExists s;
     pkName := pkName s; pkType := pkType s; skName := skName s; skType := v;
     rcu := rcu s; wcu := wcu s; lsi := lsi s;
     withOptsStr := withOptsStr s |}.

Definition set_rcu (s : StmtCreateTable) (v : Z) : StmtCreateTable :=
  {| base := base s; tableName := tableName s; ifNotExists := ifNotExists s;
     pkName := pkName s; pkType := pkType s; skName := skName s;
     skType := skType s; rcu := v; wcu := wcu s; lsi := lsi s;
     withOptsStr := withOptsStr s |}.

Definition set_wcu (s : StmtCreateTable) (v : Z) : StmtCreateTable :=
  {| base := base s; tableName := tableName s; ifNotExists := ifNotExists s;
     pkName := pkName s; pkType := pkType s; skName := skName s;
     skType := skType s; rcu := rcu s; wcu := v; lsi := lsi s;
     withOptsStr := withOptsStr s |}.

Definition set_lsi (s : StmtCreateTable) (v : list lsiDef) : StmtCreateTable :=
  {| base := base s; tableName := tableName s; ifNotExists := ifNotExists s;
     pkName := pkName s; pkType := pkType s; skName := skName s;
     skType := skType s; rcu := rcu s; wcu := wcu s; lsi := v;
     withOptsStr := withOptsStr s |}.

(** The statement [parseQuery] builds from the groups of [reCreateTable]:
    the other fields have their zero values. *)
Definition newStmtCreateTable (q : string) (ifne : bool) (table opts : string)
    : StmtCreateTable :=
  {| base := {| query := q; numInput := 0; limit := None; withOpts := ∅ |};
     tableName := table; ifNotExists := ifne;
     pkName := ""; pkType := ""; skName := ""; skType := "";
     rcu := 0; wcu := 0; lsi := []; withOptsStr := opts |}.

(** Modelled from the spec: the table [dataTypes], which is declared outside
    the files at hand.  The specification has three scalar types, binary,
    number and string, and its statements write them by their names or by
    the one-letter tags of the store (PK=id:S, LSI=idx1:f1:S); the table
    holds both forms, in upper case, and gives the type of the attribute in
    the store. *)
Definition dataTypes_spec : gmap string string :=
  {[ "BINARY" := "B"; "B" := "B"; "NUMBER" := "N"; "N" := "N";
     "STRING" := "S"; "S" := "S" ]}.

Section CreateTable.

(** The tables [dataTypes] and [keyTypes] of the package. *)
Variable dataTypes : gmap string string.
Variable keyTypes : gmap string string.

Definition is_dataType (t : string) : bool := bool_decide (is_Some (dataTypes !! t)).

(** One round of the loop of [parse] over the LSI options: the definition to
    append, or the error to return. *)
Definition parseLSI (lsiStr : string) : run (lsiDef + error) :=
  let lsiTokens := strings.SplitN lsiStr ":" 4 in
  t0 ←← index lsiTokens 0 ;;
  let d := LsiDef (strings.TrimSpace t0) "" "" "" in
  d ←← (if Nat.ltb 1 (length lsiTokens)
        then t1 ←← index lsiTokens 1 ;;
             Done (LsiDef (indexName d) (strings.TrimSpace t1) (fieldType d) (projectedFields d))
        else Done d) ;;
  d ←← (if Nat.ltb 2 (length lsiTokens)
        then t2 ←← index lsiTokens 2 ;;
             Done (LsiDef (indexName d) (fieldName d)
                     (strings.TrimSpace (strings.ToUpper t2)) (projectedFields d))
        else Done d) ;;
  d ←← (if Nat.ltb 3 (length lsiTokens)
        then t3 ←← index lsiTokens 3 ;;
             Done (LsiDef (indexName d) (fieldName d) (fieldType d) (strings.TrimSpace t3))
        else Done d) ;;
  if bool_decide (indexName d ≠ "") then
    if bool_decide (fieldName d = "") then
      Done (inr (Errorf ("invalid LSI definition <" +:+ indexName d +:+ ">: empty field name")))
    else if negb (is_dataType (fieldType d)) then
      Done (inr (Errorf ("invalid type <" +:+ fieldType d +:+ "> of LSI <" +:+ indexName d
                         +:+ ">, accepts values are BINARY, NUMBER and STRING")))
    else Done (inl d)
  else Done (inl d).

Fixpoint parseLSIs (l : list string) (acc : list lsiDef) : run (list lsiDef * option error) :=
  match l with
  | [] => Done (acc, None)
  | lsiStr :: l' =>
    r ←← parseLSI lsiStr ;;
    match r with
    | inl d => parseLSIs l' (acc ++ [d])
    | inr e => Done (acc, Some e)
    end
  end.

(** The RCU and the WCU option of [parse]: the capacity to store, or the
    error. *)
Definition parseCapacity (name : string) (withOpts : gmap string OptStrings) (old : Z)
    : Z + error :=
  match withOpts !! name with
  | Some _ =>
    match strconv.ParseInt (FirstString (opts withOpts name)) with
    | Some n =>
      if (n <=? 0)%Z
      then inr (Errorf ("invalid " +:+ name +:+ " value: " +:+ fmt_strings (opts withOpts name)))
      else inl n
    | None =>
      inr (Errorf ("invalid " +:+ name +:+ " value: " +:+ fmt_strings (opts withOpts name)))
    end
  | None => inl old
  end.

(** [StmtCreateTable.parse]: the statement as the call leaves it and the
    error returned. *)
Definition parse (s : StmtCreateTable) : run (StmtCreateTable * option error) :=
  m ←← parseWithOpts (withOptsStr s) ;;
  let s := set_base s (set_withOpts (base s) m) in
  (* partition key *)
  let pkTokens := strings.SplitN (FirstString (opts (withOpts (base s)) "PK")) ":" 2 in
  pk0 ←← index pkTokens 0 ;;
  let s := set_pkName s (strings.TrimSpace pk0) in
  s ←← (if Nat.ltb 1 (length pkTokens)
        then pk1 ←← index pkTokens 1 ;;
             Done (set_pkType s (strings.TrimSpace (strings.ToUpper pk1)))
        else Done s) ;;
  if bool_decide (pkName s = "") then
    Done (s, Some (Errorf "no PartitionKey, specify one using WITH pk=pkname:pktype"))
  else if negb (is_dataType (pkType s)) then
    Done (s, Some (Errorf ("invalid type <" +:+ pkType s
                     +:+ "> for PartitionKey, accepts values are BINARY, NUMBER and STRING")))
  else
  (* sort key *)
  let skTokens := strings.SplitN (FirstString (opts (withOpts (base s)) "SK")) ":" 2 in
  sk0 ←← index skTokens 0 ;;
  let s := set_skName s (strings.TrimSpace sk0) in
  s ←← (if Nat.ltb 1 (length skTokens)
        then sk1 ←← index skTokens 1 ;;
             Done (set_skType s (strings.TrimSpace (strings.ToUpper sk1)))
        else Done s) ;;
  if negb (is_dataType (skType s)) && bool_decide (skName s ≠ "") then
    Done (s, Some (Errorf ("invalid type SortKey <" +:+ skType s
                     +:+ ">, accepts values are BINARY, NUMBER and STRING")))
  else
  (* local secondary index *)
  r ←← parseLSIs (opts (withOpts (base s)) "LSI") (lsi s) ;;
  let s := set_lsi s r.1 in
  match r.2 with
  | Some e => Done (s, Some e)
  | None =>
    (* RCU *)
    match parseCapacity "RCU" (withOpts (base s)) (rcu s) with
    | inr e => Done (s, Some e)
    | inl n =>
      let s := set_rcu s n in
      (* WCU *)
      match parseCapacity "WCU" (withOpts (base s)) (wcu s) with
      | inr e => Done (s, Some e)
      | inl n => Done (set_wcu s n, None)
      end
    end
  end.

(** [StmtCreateTable.validate] *)
Definition validate (s : StmtCreateTable) : option error :=
  if bool_decide (tableName s = "") then Some (Errorf "table name is missing") else None.

(** The branch of [parseQuery] for CREATE TABLE, from the groups of the
    match of [reCreateTable] on: the statement prepared, if any, and the
    error.  Nothing here reaches the client. *)
Definition parseQuery_CreateTable (q : string) (g1 g2 g3 : string)
    : run (option StmtCreateTable * option error) :=
  let stmt := newStmtCreateTable q (negb (bool_decide (strings.TrimSpace g1 = "")))
                (strings.TrimSpace g2) (" " +:+ strings.TrimSpace g3) in
  r ←← parse stmt ;;
  match r.2 with
  | Some err => Done (None, Some err)
  | None => Done (Some r.1, validate r.1)
  end.

Definition dataType (t : string) : string := default "" (dataTypes !! t).
Definition keyType (t : string) : string := default "" (keyTypes !! t).

Definition lsiAttrDef (d : lsiDef) : AttributeDefinition :=
  {| AttributeName := fieldName d; AttributeType := dataType (fieldType d) |}.

Definition lsiProjection (d : lsiDef) : Projection :=
  if bool_decide (projectedFields d = "*") then
    {| ProjType := ProjectionTypeAll; NonKeyAttributes := [] |}
  else if bool_decide (projectedFields d ≠ "") then
    {| ProjType := ProjectionTypeInclude;
       NonKeyAttributes := strings.Split (projectedFields d) "," |}
  else {| ProjType := ProjectionTypeKeysOnly; NonKeyAttributes := [] |}.

Definition lsiIndex (s : StmtCreateTable) (d : lsiDef) : LocalSecondaryIndex :=
  {| IndexName := indexName d;
     IndexKeySchema :=
       [ {| KeyAttributeName := pkName s; KeyType := keyType "HASH" |};
         {| KeyAttributeName := fieldName d; KeyType := keyType "RANGE" |} ];
     IndexProjection := lsiProjection d |}.

(** The request [Exec] builds. *)
Definition createTableInput (s : StmtCreateTable) : CreateTableInput :=
  let attrDefs := [ {| AttributeName := pkName s; AttributeType := dataType (pkType s) |} ] in
  let attrDefs :=
    if bool_decide (skName s ≠ "")
    then attrDefs ++ [ {| AttributeName := skName s; AttributeType := dataType (skType s) |} ]
    else attrDefs in
  let keySchema := [ {| KeyAttributeName := pkName s; KeyType := keyType "HASH" |} ] in
  let keySchema :=
    if bool_decide (skName s ≠ "")
    then keySchema ++ [ {| KeyAttributeName := skName s; KeyType := keyType "RANGE" |} ]
    else keySchema in
  let attrDefs := attrDefs ++ (lsiAttrDef <$> lsi s) in
  let lsi := lsiIndex s <$> lsi s in
  let payPerRequest := bool_decide (rcu s = 0%Z) && bool_decide (wcu s = 0%Z) in
  {| TableName := tableName s;
     AttributeDefinitions := attrDefs;
     KeySchema := keySchema;
     LocalSecondaryIndexes := lsi;
     InputBillingMode := if payPerRequest then BillingModePayPerRequest else BillingModeUnset;
     InputProvisionedThroughput :=
       if payPerRequest then None
       else Some {| ReadCapacityUnits := rcu s; WriteCapacityUnits := wcu s |} |}.

Record ResultCreateTable : Type := {
  Successful : bool;
}.

(** [StmtCreateTable.Exec]: the result, the error and the log of the calls
    to the service. *)
Definition Exec (client : Client) (s : StmtCreateTable) (log : list call)
    : ResultCreateTable * option error * list call :=
  let input := createTableInput s in
  let err := CreateTable client log input in
  let log := log ++ [CallCreateTable input] in
  let result := {| Successful := bool_decide (err = None) |} in
  let err := if ifNotExists s && IsAwsError err "ResourceInUseException" then None else err in
  (result, err, log).

(** [ResultCreateTable.RowsAffected] *)
Definition RowsAffected (r : ResultCreateTable) : Z * option error :=
  if Successful r then (1%Z, None) else (0%Z, None).

End CreateTable.

(** ** [conn.go]: the connection and its transaction *)

Inductive TxMode : Type :=
| txNone
| txStarted
| txCommitting
| txRollingBack.

#[global] Instance TxMode_eq_dec : EqDecision TxMode.
Proof. solve_decision. Defined.

(** The value of a [driver.NamedValue]. *)
Inductive Value : Type :=
| ValueNil
| ValueInt (v : Z)
| ValueBool (v : bool)
| ValueString (v : string)
| ValueBytes (v : string)
| ValueOther (v : nat).

(** [txStmt]: a statement queued in a transaction. *)
Record txStmt : Type := {
  txstmt : Stmt;
  values : list Value;
  output : option ExecuteStatementOutput;
}.

Definition set_output (v : option ExecuteStatementOutput) (t : txStmt) : txStmt :=
  {| txstmt := txstmt t; values := values t; output := v |}.

Record statement : Type := {
  stClient : option Client;
  stLimit : Z;
  stInput : option ExecuteStatementInput;
  stOutput : option ExecuteStatementOutput;
}.

Inductive Tx : Type := MkTx.

(** [Conn].  The queue [txStmtList] holds pointers: the queued statements
    live in the heap of the [World], where the functions returned by
    [executeContext] read them too. *)
Record Conn : Type := {
  tx : option Tx;
  txMode : TxMode;
  txStmtList : list nat;
}.

Record World : Type := {
  conn : Conn;
  heap : list txStmt;
  calls : list call;
}.

(** What [executeContext] returns, a [statementOutputWrapper]: inside a
    transaction a closure over the queued statement, which it reads when it
    is called; outside, a closure over the values of the call. *)
Inductive statementOutputWrapper : Type :=
| WrapQueued (p : nat)
| WrapExecuted (s : statement).

Definition callWrapper (w : World) (f : statementOutputWrapper) : run statement :=
  match f with
  | WrapQueued p =>
    t ←← deref (heap w !! p) ;;
    Done {| stClient := None; stLimit := 0; stInput := None; stOutput := output t |}
  | WrapExecuted s => Done s
  end.

(** What the deferred function of [commit] and of [rollback] leaves. *)
Definition noTx : Conn := {| tx := None; txMode := txNone; txStmtList := [] |}.

(** The output the [i]-th statement of a committed transaction gets. *)
Definition txOutputAt (o : ExecuteTransactionOutput) (i : nat) : ExecuteStatementOutput :=
  {| ResultMetadata := TxResultMetadata o;
     OutputConsumedCapacity := TxConsumedCapacity o !! i;
     Items := match Responses o !! i with
              | Some r => [ResponseItem r]
              | None => []
              end;
     NextToken := None |}.

(** The second loop of [commit]: the outputs written through the pointers
    of the queue, from the [i]-th on. *)
Fixpoint distribute (o : ExecuteTransactionOutput) (i : nat) (ptrs : list nat)
    (h : list txStmt) : list txStmt :=
  match ptrs with
  | [] => h
  | p :: ptrs' => distribute o (S i) ptrs' (alter (set_output (Some (txOutputAt o i))) p h)
  end.

Section Conn.

Variable client : Client.

(** The codec of the package from a Go value to an attribute, and [ToBool]
    of the library reddo; both lie outside the files at hand. *)
Variable ToAttributeValue : Value → AttributeValue * option error.
Variable ToBool : string → bool.

Definition FirstBool (s : OptStrings) : bool := ToBool (FirstString s).

(** The parameters of one statement; [wrap j e] is the error returned when
    the [j]-th value, counted from zero, fails with [e]. *)
Fixpoint marshal (wrap : nat → error → error) (vs : list Value) (j : nat)
    : list AttributeValue + error :=
  match vs with
  | [] => inl []
  | v :: vs' =>
    match ToAttributeValue v with
    | (_, Some e) => inr (wrap j e)
    | (a, None) =>
      match marshal wrap vs' (S j) with
      | inl params => inl (a :: params)
      | inr e => inr e
      end
    end
  end.

Definition commitError (q : string) (j : nat) (e : error) : error :=
  Errorf ("error marshalling parameter " +:+ pretty (j + 1) +:+ "-th for statement <"
          +:+ q +:+ ">: " +:+ Error e).

(** The first loop of [commit]. *)
Fixpoint txStatements (h : list txStmt) (ptrs : list nat)
    : run (list ParameterizedStatement + error) :=
  match ptrs with
  | [] => Done (inl [])
  | p :: ptrs' =>
    t ←← deref (h !! p) ;;
    match marshal (commitError (query (txstmt t))) (values t) 0 with
    | inr e => Done (inr e)
    | inl params =>
      r ←← txStatements h ptrs' ;;
      match r with
      | inl l => Done (inl ({| TxStatement := query (txstmt t); TxParameters := params |} :: l))
      | inr e => Done (inr e)
      end
    end
  end.

(** [Conn.commit]: the world it leaves and how it returns.  Once the mode is
    set to committing the deferred function runs on every way out, a panic
    included. *)
Definition commit (w : World) : World * run (option error) :=
  let c := conn w in
  match tx c with
  | None => (w, Done (Some ErrNoTx))
  | Some _ =>
    if bool_decide (txMode c = txRollingBack) then (w, Done (Some ErrTxRollingBack))
    else if bool_decide (txMode c ≠ txStarted) && bool_decide (txMode c ≠ txCommitting)
    then (w, Done (Some ErrInvalidTxStage))
    else
      let leave h l r := ({| conn := noTx; heap := h; calls := l |}, r) in
      if bool_decide (length (txStmtList c) = 0) then leave (heap w) (calls w) (Done None)
      else
        match txStatements (heap w) (txStmtList c) with
        | Panicked => leave (heap w) (calls w) Panicked
        | OutOfFuel => leave (heap w) (calls w) OutOfFuel
        | Done (inr e) => leave (heap w) (calls w) (Done (Some e))
        | Done (inl txStmts) =>
          let input := {| TransactStatements := txStmts |} in
          let r := ExecuteTransaction client (calls w) input in
          let l := calls w ++ [CallExecuteTransaction input] in
          match r.2 with
          | Some e => leave (heap w) l (Done (Some e))
          | None =>
            match r.1 with
            | None => leave (heap w) l Panicked
            | Some o => leave (distribute o 0 (txStmtList c) (heap w)) l (Done None)
            end
          end
        end
  end.

(** [Conn.rollback] *)
Definition rollback (w : World) : World * option error :=
  let c := conn w in
  match tx c with
  | None => (w, Some ErrNoTx)
  | Some _ =>
    if bool_decide (txMode c = txCommitting) then (w, Some ErrTxCommitting)
    else if bool_decide (txMode c ≠ txStarted) && bool_decide (txMode c ≠ txRollingBack)
    then (w, Some ErrInvalidTxStage)
    else ({| conn := noTx; heap := heap w; calls := calls w |}, None)
  end.

(** [Conn.BeginTx] *)
Definition BeginTx (w : World) : World * (option Tx * option error) :=
  let c := conn w in
  match tx c with
  | None =>
    ({| conn := {| tx := Some MkTx; txMode := txStarted; txStmtList := [] |};
        heap := heap w; calls := calls w |}, (Some MkTx, None))
  | Some t => (w, (Some t, Some ErrInTx))
  end.

Definition executeError (j : nat) (e : error) : error :=
  Errorf ("error marshalling parameter " +:+ pretty (j + 1) +:+ "-th: " +:+ Error e).

(** [Conn.executeContext] *)
Definition executeContext (w : World) (stmt : Stmt) (vs : list Value)
    : World * (option statementOutputWrapper * option error) :=
  let c := conn w in
  if bool_decide (txMode c = txStarted) then
    let p := length (heap w) in
    ({| conn := {| tx := tx c; txMode := txMode c; txStmtList := txStmtList c ++ [p] |};
        heap := heap w ++ [ {| txstmt := stmt; values := vs; output := None |} ];
        calls := calls w |},
     (Some (WrapQueued p), Some ErrInTx))
  else if bool_decide (txMode c ≠ txNone) then (w, (None, Some ErrInvalidTxStage))
  else
    match marshal executeError vs 0 with
    | inr e => (w, (None, Some e))
    | inl params =>
      let consistentRead :=
        match withOpts stmt !! "CONSISTENT_READ" with
        | Some o => Some (FirstBool o)
        | None =>
          match withOpts stmt !! "CONSISTENTREAD" with
          | Some o => Some (FirstBool o)
          | None => None
          end
        end in
      let input := {| Statement := query stmt; Parameters := params;
                      ConsistentRead := consistentRead; InputNextToken := None;
                      Limit := limit stmt |} in
      let limitNumItems := default 0%Z (limit stmt) in
      let r := ExecuteStatement client (calls w) input in
      ({| conn := c; heap := heap w; calls := calls w ++ [CallExecuteStatement input] |},
       (Some (WrapExecuted {| stClient := Some client; stLimit := limitNumItems;
                              stInput := Some input; stOutput := r.1 |}), r.2))
    end.

End Conn.

(** ** [stmt.go]: the rows of a result *)

(** The Go types [attributevalue.Unmarshal] gives to a value it decodes into
    an empty interface. *)
Inductive reflectType : Type :=
| TypeBytes
| TypeBool
| TypeBytesList
| TypeList
| TypeMap
| TypeFloat64
| TypeFloat64List
| TypeString
| TypeStringList.

(** [reflect.TypeOf] of the value [attributevalue.Unmarshal] decodes from an
    attribute of the AWS SDK: a NULL attribute decodes to the nil interface,
    whose type is nil. *)
Definition sdkTypeOf (av : AttributeValue) : option reflectType :=
  match av with
  | AttributeValueMemberB _ => Some TypeBytes
  | AttributeValueMemberBOOL _ => Some TypeBool
  | AttributeValueMemberBS _ => Some TypeBytesList
  | AttributeValueMemberL _ => Some TypeList
  | AttributeValueMemberM _ => Some TypeMap
  | AttributeValueMemberN _ => Some TypeFloat64
  | AttributeValueMemberNS _ => Some TypeFloat64List
  | AttributeValueMemberNULL _ => None
  | AttributeValueMemberS _ => Some TypeString
  | AttributeValueMemberSS _ => Some TypeStringList
  end.

(** Modelled from the spec: [nameFromAttributeValue], which is declared
    outside the files at hand.  It gives the native source-type tag of an
    attribute, one of the kinds of the store: B, BOOL, BS, L, M, N, NS, NULL,
    S, SS. *)
Definition nameFromAttributeValue (av : AttributeValue) : string :=
  match av with
  | AttributeValueMemberB _ => "B"
  | AttributeValueMemberBOOL _ => "BOOL"
  | AttributeValueMemberBS _ => "BS"
  | AttributeValueMemberL _ => "L"
  | AttributeValueMemberM _ => "M"
  | AttributeValueMemberN _ => "N"
  | AttributeValueMemberNS _ => "NS"
  | AttributeValueMemberNULL _ => "NULL"
  | AttributeValueMemberS _ => "S"
  | AttributeValueMemberSS _ => "SS"
  end.

(** [ResultResultSet].  A map that is nil reads as the empty map, and [init]
    makes the two maps before it writes to them: both are the empty map
    here.  An entry of [columnTypes] may hold the nil type, [None]. *)
Record ResultResultSet : Type := {
  err : option error;
  columnList : list string;
  columnTypes : gmap string (option reflectType);
  columnSourceTypes : gmap string string;
  stmt : option statement;
  read : Z;
  items : list Item;
}.

(** [m[col]] of [columnTypes]: nil when the key is absent. *)
Definition columnType (m : gmap string (option reflectType)) (col : string)
    : option reflectType :=
  default None (m !! col).

(** int32 arithmetic wraps around. *)
Definition wrap32 (z : Z) : Z := ((z + 2 ^ 31) mod 2 ^ 32 - 2 ^ 31)%Z.

Section Rows.

(** [reflect.TypeOf] of the unmarshalled value of an attribute. *)
Variable TypeOf : AttributeValue → option reflectType.

(** What the loops of [init] carry: the set of columns seen, the types and
    the source types. *)
Record colState : Type := {
  colMap : gset string;
  colTypes : gmap string (option reflectType);
  colSourceTypes : gmap string string;
}.

(** The body of the inner loop of [init], for one attribute of an item. *)
Definition initCol (st : colState) (entry : string * AttributeValue) : colState :=
  let col := entry.1 in
  let av := entry.2 in
  let seen := {[col]} ∪ colMap st in
  match columnType (colTypes st) col with
  | None =>
    {| colMap := seen;
       colTypes := <[col := TypeOf av]> (colTypes st);
       colSourceTypes := <[col := nameFromAttributeValue av]> (colSourceTypes st) |}
  | Some _ =>
    {| colMap := seen; colTypes := colTypes st; colSourceTypes := colSourceTypes st |}
  end.

(** The inner loop: over the attributes of an item, in the order the map
    gives them. *)
Definition initItem (st : colState) (item : Item) : colState :=
  foldl initCol st (map_to_list item).

(** [ResultResultSet.init] *)
Definition init (r : ResultResultSet) : ResultResultSet :=
  match stmt r with
  | None => r
  | Some s =>
    match stOutput s with
    | None => r
    | Some out =>
      let st := foldl initItem
                  {| colMap := ∅; colTypes := columnTypes r;
                     colSourceTypes := columnSourceTypes r |} (Items out) in
      {| err := err r;
         columnList :=
           if Nat.ltb 0 (length (columnList r)) then columnList r
           else merge_sort String.le (elements (colMap st));
         columnTypes := colTypes st;
         columnSourceTypes := colSourceTypes st;
         stmt := stmt r;
         read := read r;
         items := Items out |}
    end
  end.

(** [ResultResultSet.fetchNext]: the rows after it, the log of the calls and
    the error returned. *)
Definition fetchNext (r : ResultResultSet) (log : list call)
    : run (ResultResultSet * list call * option error) :=
  s ←← deref (stmt r) ;;
  out ←← deref (stOutput s) ;;
  match NextToken out with
  | None => Done (r, log, Some EOF)
  | Some tok =>
    input ←← deref (stInput s) ;;
    let input := {| Statement := Statement input; Parameters := Parameters input;
                    ConsistentRead := ConsistentRead input;
                    InputNextToken := Some tok; Limit := Limit input |} in
    cl ←← deref (stClient s) ;;
    let res := ExecuteStatement cl log input in
    let s' := {| stClient := stClient s; stLimit := stLimit s;
                 stInput := Some input; stOutput := res.1 |} in
    let its := match res.2, res.1 with
               | None, Some out' => Items out'
               | _, _ => items r
               end in
    Done ({| err := err r; columnList := columnList r; columnTypes := columnTypes r;
             columnSourceTypes := columnSourceTypes r; stmt := Some s';
             read := read r; items := its |},
          log ++ [CallExecuteStatement input], res.2)
  end.

Definition set_err (r : ResultResultSet) (e : option error) : ResultResultSet :=
  {| err := e; columnList := columnList r; columnTypes := columnTypes r;
     columnSourceTypes := columnSourceTypes r; stmt := stmt r;
     read := read r; items := items r |}.

(** What [Next] returns: nil and the row it wrote to [dest], or an error.
    The row holds, per column, the attribute that is unmarshalled into the
    place of the column. *)
Inductive nextResult : Type :=
| Row (row : list (option AttributeValue))
| Failed (e : error).

(** [ResultResultSet.Next], for a [dest] of [ndest] places.  The fuel bounds
    the calls of [Next] by itself after a fetch. *)
Fixpoint Next (fuel : nat) (r : ResultResultSet) (log : list call) (ndest : nat)
    : run (ResultResultSet * list call * nextResult) :=
  match fuel with
  | O => OutOfFuel
  | S fuel' =>
    match err r with
    | Some e => Done (r, log, Failed e)
    | None =>
      s ←← deref (stmt r) ;;
      if ((0 <? stLimit s)%Z && (stLimit s <=? read r)%Z)%bool then Done (r, log, Failed EOF)
      else
        match items r with
        | [] =>
          f ←← fetchNext r log ;;
          let r' := set_err f.1.1 f.2 in
          match f.2 with
          | Some e => Done (r', f.1.2, Failed e)
          | None => Next fuel' r' f.1.2 ndest
          end
        | rowData :: its =>
          let r' := {| err := err r; columnList := columnList r;
                       columnTypes := columnTypes r;
                       columnSourceTypes := columnSourceTypes r; stmt := stmt r;
                       read := wrap32 (read r + 1); items := its |} in
          if Nat.ltb ndest (length (columnList r)) then Panicked
          else Done (r', log, Row ((fun col => rowData !! col) <$> columnList r))
        end
    end
  end.

End Rows.

(** ** The option parser as the specification words it

    The specification has the parser match the leading token of the text
    again and again.  [matchPrefix] is a match that starts at the first byte
    of the text, [leadingOpts] the keys and values of the leading tokens in
    the order of the text, and [valuesOf] the values of one key among them. *)







(** ** What the statements of the properties use

    The measure of a match in progress and of a pattern. *)

Definition total (st : mstate) : nat := pos st + strings.len (rest st).

(** The least number of bytes a match of a pattern takes. *)
Fixpoint min_len (r : regex) : nat :=
  match r with
  | Eps | BeginLine | EndLine | Star _ => 0
  | Rune _ => 1
  | Cat r1 r2 => min_len r1 + min_len r2
  | Alt r1 r2 => min_len r1 `min` min_len r2
  | Group _ r1 => min_len r1
  end.

(** *** The options of a statement *)


(** *** CREATE TABLE: what [parse] reads from the options *)

(** The name and the type tag [parse] reads from the value of a PK or SK
    option: the text before the first colon, and the text after it in upper
    case. *)
Definition keyName (v : string) : string :=
  strings.TrimSpace (StringAt (strings.SplitN v ":" 2) 0).

Definition keyTag (v : string) : string :=
  match strings.SplitN v ":" 2 !! 1 with
  | Some t => strings.TrimSpace (strings.ToUpper t)
  | None => ""
  end.

(** The definition [parse] reads from the value of an LSI option. *)
Definition lsiOf (v : string) : lsiDef :=
  let t := strings.SplitN v ":" 4 in
  {| indexName := strings.TrimSpace (StringAt t 0);
     fieldName := match t !! 1 with Some x => strings.TrimSpace x | None => "" end;
     fieldType := match t !! 2 with
                  | Some x => strings.TrimSpace (strings.ToUpper x)
                  | None => ""
                  end;
     projectedFields := match t !! 3 with Some x => strings.TrimSpace x | None => "" end |}.

(** The errors of [parse], by the place that makes them. *)
Definition errNoPK : error :=
  Errorf "no PartitionKey, specify one using WITH pk=pkname:pktype".
Definition errPKType (tag : string) : error :=
  Errorf ("invalid type <" +:+ tag
          +:+ "> for PartitionKey, accepts values are BINARY, NUMBER and STRING").
Definition errSKType (tag : string) : error :=
  Errorf ("invalid type SortKey <" +:+ tag
          +:+ ">, accepts values are BINARY, NUMBER and STRING").
Definition errLSIField (idx : string) : error :=
  Errorf ("invalid LSI definition <" +:+ idx +:+ ">: empty field name").
Definition errLSIType (tag idx : string) : error :=
  Errorf ("invalid type <" +:+ tag +:+ "> of LSI <" +:+ idx
          +:+ ">, accepts values are BINARY, NUMBER and STRING").

(** The check of one LSI definition, and of the definitions in turn. *)
Definition lsiCheck (dataTypes : gmap string string) (d : lsiDef) : option error :=
  if bool_decide (indexName d = "") then None
  else if bool_decide (fieldName d = "") then Some (errLSIField (indexName d))
  else if is_dataType dataTypes (fieldType d) then None
  else Some (errLSIType (fieldType d) (indexName d)).

Fixpoint lsiChecks (dataTypes : gmap string string) (l : list string) : option error :=
  match l with
  | [] => None
  | v :: l' =>
    match lsiCheck dataTypes (lsiOf v) with
    | Some e => Some e
    | None => lsiChecks dataTypes l'
    end
  end.

(** The error of [parse], from the options: the first check that fails. *)
Definition parseChecks (dataTypes : gmap string string) (m : gmap string OptStrings)
    : option error :=
  let pk := FirstString (opts m "PK") in
  let sk := FirstString (opts m "SK") in
  if bool_decide (keyName pk = "") then Some errNoPK
  else if negb (is_dataType dataTypes (keyTag pk)) then Some (errPKType (keyTag pk))
  else if negb (is_dataType dataTypes (keyTag sk)) && bool_decide (keyName sk ≠ "")
  then Some (errSKType (keyTag sk))
  else match lsiChecks dataTypes (opts m "LSI") with
  | Some e => Some e
  | None =>
    match parseCapacity "RCU" m 0 with
    | inr e => Some e
    | inl _ =>
      match parseCapacity "WCU" m 0 with
      | inr e => Some e
      | inl _ => None
      end
    end
  end.

(** The error [parse] makes for a capacity option. *)
Definition errCapacity (name : string) (l : OptStrings) : error :=
  Errorf ("invalid " +:+ name +:+ " value: " +:+ fmt_strings l).

(** *** CREATE TABLE: the checks of [parse], in terms of the options *)

(** The partition key has a name and a type of the table. *)
Definition pkPasses (dataTypes : gmap string string) (m : gmap string OptStrings) : Prop :=
  keyName (FirstString (opts m "PK")) ≠ ""
  ∧ is_dataType dataTypes (keyTag (FirstString (opts m "PK"))) = true.

(** The sort key has no name, or a type of the table. *)
Definition skPasses (dataTypes : gmap string string) (m : gmap string OptStrings) : Prop :=
  keyName (FirstString (opts m "SK")) = ""
  ∨ is_dataType dataTypes (keyTag (FirstString (opts m "SK"))) = true.

(** The value of an LSI option has no index name, or a field name and a
    type of the table. *)
Definition lsiPasses (dataTypes : gmap string string) (v : string) : Prop :=
  indexName (lsiOf v) = ""
  ∨ (fieldName (lsiOf v) ≠ "" ∧ is_dataType dataTypes (fieldType (lsiOf v)) = true).

(** The first value of a capacity option is no positive integer. *)
Definition notPositive (l : OptStrings) : Prop :=
  ∀ n, strconv.ParseInt (FirstString l) = Some n → (n ≤ 0)%Z.

(** A capacity option is absent, or its first value is a positive integer. *)
Definition capacityPasses (name : string) (m : gmap string OptStrings) : Prop :=
  ∀ l, m !! name = Some l → ∃ n, strconv.ParseInt (FirstString l) = Some n ∧ (0 < n)%Z.

(** *** CREATE TABLE: examples *)

(** The error of a run that returns a value and an error. *)
Definition errorOf {A : Type} (r : run (A * option error)) : run (option error) :=
  x ←← r ;; Done x.2.

(** The statement a run of [parse] leaves. *)
Definition stmtOf (r : run (StmtCreateTable * option error)) : option StmtCreateTable :=
  match r with
  | Done x => Some x.1
  | _ => None
  end.

(** A table [keyTypes] for the examples. *)
Definition keyTypes_example : gmap string string :=
  {[ "HASH" := "HASH"; "RANGE" := "RANGE" ]}.

(** A service on which the table exists already. *)
Definition client_table_exists : Client :=
  {| CreateTable := λ _ _, Some (ApiError "ResourceInUseException" "Table already exists: t");
     ExecuteStatement := λ _ _, (None, Some (TransportError "not used"));
     ExecuteTransaction := λ _ _, (None, Some (TransportError "not used")) |}.

(** CREATE TABLE IF NOT EXISTS t WITH PK=id:STRING, after [parse]. *)
Definition stmt_if_not_exists : StmtCreateTable :=
  {| base := {| query := "CREATE TABLE IF NOT EXISTS t WITH PK=id:STRING"; numInput := 0;
                limit := None; withOpts := {[ "PK" := ["id:STRING"] ]} |};
     tableName := "t"; ifNotExists := true;
     pkName := "id"; pkType := "STRING"; skName := ""; skType := "";
     rcu := 0; wcu := 0; lsi := []; withOptsStr := " WITH PK=id:STRING" |}.

(** CREATE TABLE t WITH PK=id:STRING, WITH LSI=:f:FOO, after [parse]. *)
Definition stmt_unnamed_lsi : StmtCreateTable :=
  {| base := {| query := "CREATE TABLE t WITH PK=id:STRING, WITH LSI=:f:FOO"; numInput := 0;
                limit := None;
                withOpts := {[ "PK" := ["id:STRING"]; "LSI" := [":f:FOO"] ]} |};
     tableName := "t"; ifNotExists := false;
     pkName := "id"; pkType := "STRING"; skName := ""; skType := "";
     rcu := 0; wcu := 0;
     lsi := [ {| indexName := ""; fieldName := "f"; fieldType := "FOO";
                 projectedFields := "" |} ];
     withOptsStr := " WITH PK=id:STRING, WITH LSI=:f:FOO" |}.

(** *** The transaction of a connection *)

(** The queue of a world is well formed: its pointers are distinct and point
    into the heap. *)
Definition wf_world (w : World) : Prop :=
  NoDup (txStmtList (conn w)) ∧ Forall (λ p, p < length (heap w)) (txStmtList (conn w)).

(** A connection is coherent: it has a transaction exactly when its mode is
    not none, and no queue without one. *)
Definition coherent (c : Conn) : Prop :=
  (tx c = None ↔ txMode c = txNone) ∧ (tx c = None → txStmtList c = []).

(** A new connection. *)
Definition newWorld : World :=
  {| conn := noTx; heap := []; calls := [] |}.

Definition codec_example (v : Value) : AttributeValue * option error :=
  match v with
  | ValueString s => (AttributeValueMemberS s, None)
  | ValueBool b => (AttributeValueMemberBOOL b, None)
  | ValueNil => (AttributeValueMemberNULL true, None)
  | _ => (AttributeValueMemberNULL true, Some (Errorf "unsupported value"))
  end.

Definition ToBool_example (s : string) : bool := bool_decide (s = "true").

(** The output of a batch of two statements: two capacity records and one
    response. *)
Definition batch_example : ExecuteTransactionOutput :=
  {| TxResultMetadata := 7;
     TxConsumedCapacity := [ {| CapacityTable := "t"; CapacityUnits := 2 |};
                             {| CapacityTable := "u"; CapacityUnits := 4 |} ];
     Responses := [ {| ResponseItem := {[ "id" := AttributeValueMemberS "a" ]} |} ] |}.

Definition client_commits : Client :=
  {| CreateTable := λ _ _, None;
     ExecuteStatement := λ _ _, (None, Some (TransportError "not used"));
     ExecuteTransaction := λ _ _, (Some batch_example, None) |}.

Definition client_down : Client :=
  {| CreateTable := λ _ _, Some (TransportError "connection refused");
     ExecuteStatement := λ _ _, (None, Some (TransportError "connection refused"));
     ExecuteTransaction := λ _ _, (None, Some (TransportError "connection refused")) |}.

Definition stmt_update : Stmt :=
  {| query := "UPDATE t SET a=1 WHERE id=? RETURNING ALL OLD *"; numInput := 1;
     limit := None; withOpts := ∅ |}.

Definition stmt_delete : Stmt :=
  {| query := "DELETE FROM u WHERE id='b'"; numInput := 0; limit := None; withOpts := ∅ |}.

(** A connection that began a transaction and queued two statements. *)
Definition world_two_queued (client : Client) : World :=
  let w := (BeginTx newWorld).1 in
  let w := (executeContext client codec_example ToBool_example w stmt_update
              [ValueString "a"]).1 in
  (executeContext client codec_example ToBool_example w stmt_delete []).1.

(** *** The rows of a result *)

Section RowsSpec.

Variable TypeOf : AttributeValue → option reflectType.

Definition typed (av : AttributeValue) : bool :=
  match TypeOf av with Some _ => true | None => false end.

Definition chosen (avs : list AttributeValue) : option AttributeValue :=
  match find typed avs with
  | Some av => Some av
  | None => last avs
  end.

Definition view (st : colState) (col : string) : option (option reflectType) * option string :=
  (colTypes st !! col, colSourceTypes st !! col).

Definition stepView (v : option (option reflectType) * option string)
    (oav : option AttributeValue) : option (option reflectType) * option string :=
  match oav with
  | None => v
  | Some av =>
    match default None v.1 with
    | None => (Some (TypeOf av), Some (nameFromAttributeValue av))
    | Some _ => v
    end
  end.

End RowsSpec.

Definition page_example : ExecuteStatementOutput :=
  {| ResultMetadata := 1;
     OutputConsumedCapacity := None;
     Items := [ {[ "a" := AttributeValueMemberNULL true; "b" := AttributeValueMemberN "1" ]};
                {[ "a" := AttributeValueMemberS "x" ]} ];
     NextToken := None |}.

(** The rows of a SELECT without named columns, before [init]. *)
Definition rows_example : ResultResultSet :=
  {| err := None; columnList := []; columnTypes := ∅; columnSourceTypes := ∅;
     stmt := Some {| stClient := None; stLimit := 0; stInput := None;
                     stOutput := Some page_example |};
     read := 0; items := [] |}.

Definition isRow (res : nextResult) : bool :=
  match res with Row _ => true | Failed _ => false end.

Definition rowsYielded (rs : list nextResult) : nat := length (filter (λ x, isRow x = true) rs).

Inductive NextRun : ResultResultSet → list call → list nextResult
                    → ResultResultSet → list call → Prop :=
| NextRun_nil (r : ResultResultSet) (log : list call) : NextRun r log [] r log
| NextRun_cons (fuel ndest : nat) (r r1 r2 : ResultResultSet) (log log1 log2 : list call)
    (res : nextResult) (rs : list nextResult) :
    Next fuel r log ndest = Done (r1, log1, res) →
    NextRun r1 log1 rs r2 log2 →
    NextRun r log (res :: rs) r2 log2.

Definition cursorInv (L n : Z) (r : ResultResultSet) : Prop :=
  (∃ s, stmt r = Some s ∧ stLimit s = L)
  ∧ read r = n ∧ (0 ≤ n ≤ L)%Z ∧ (n = L → err r = None).

Definition input_example : ExecuteStatementInput :=
  {| Statement := "SELECT * FROM t"; Parameters := []; ConsistentRead := None;
     InputNextToken := None; Limit := Some 1%Z |}.

Definition item_a : gmap string AttributeValue := {[ "id" := AttributeValueMemberS "a" ]}.
Definition item_b : gmap string AttributeValue := {[ "id" := AttributeValueMemberS "b" ]}.

(** A cursor with the limit 1 over a page of two rows, with more pages at
    the service. *)
Definition stmt_limit_one : statement :=
  {| stClient := Some client_down; stLimit := 1; stInput := Some input_example;
     stOutput := Some {| ResultMetadata := 1; OutputConsumedCapacity := None;
                         Items := [item_a; item_b]; NextToken := Some "more" |} |}.

Definition rows_limit_one (n : Z) (its : list (gmap string AttributeValue))
    : ResultResultSet :=
  {| err := None; columnList := ["id"]; columnTypes := ∅; columnSourceTypes := ∅;
     stmt := Some stmt_limit_one; read := n; items := its |}.

(** A cursor without limit whose page is used up and was the last one. *)
Definition rows_last_page (e : option error) : ResultResultSet :=
  {| err := e; columnList := ["id"]; columnTypes := ∅; columnSourceTypes := ∅;
     stmt := Some {| stClient := Some client_down; stLimit := 0;
                     stInput := Some input_example;
                     stOutput := Some {| ResultMetadata := 1;
                                         OutputConsumedCapacity := None;
                                         Items := [item_a]; NextToken := None |} |};
     read := 1; items := [] |}.

(** ** [stmt.go]: the other methods of the rows *)

(** [ResultResultSet.Columns] *)
Definition Columns (r : ResultResultSet) : list string := columnList r.

(** [ResultResultSet.ColumnTypeScanType]; an index beyond the column list
    panics. *)
Definition ColumnTypeScanType (r : ResultResultSet) (i : nat) : run (option reflectType) :=
  col ←← index (columnList r) i ;; Done (columnType (columnTypes r) col).

(** [ResultResultSet.ColumnTypeDatabaseTypeName] *)
Definition ColumnTypeDatabaseTypeName (r : ResultResultSet) (i : nat) : run string :=
  col ←← index (columnList r) i ;; Done (default "" (columnSourceTypes r !! col)).

(** [ResultResultSet.Close] *)
Definition Close (r : ResultResultSet) : option error := err r.

(** The row [Next] writes for an item. *)
Definition rowOf (cols : list string) (rowData : gmap string AttributeValue) : nextResult :=
  Row ((λ col, rowData !! col) <$> cols).

(** The rows after [n] more items were read and [its] are left. *)
Definition advanced (r : ResultResultSet) (n : nat) (its : list (gmap string AttributeValue))
    : ResultResultSet :=
  {| err := err r; columnList := columnList r; columnTypes := columnTypes r;
     columnSourceTypes := columnSourceTypes r; stmt := stmt r;
     read := read r + Z.of_nat n; items := its |}.

(** A cursor whose fetch fails. *)
Definition rows_fetch_fails : ResultResultSet :=
  {| err := None; columnList := ["id"]; columnTypes := ∅; columnSourceTypes := ∅;
     stmt := Some stmt_limit_one; read := 0; items := [] |}.

(** A cursor without limit over its only page, of two rows. *)
Definition rows_buffered : ResultResultSet :=
  {| err := None; columnList := ["id"]; columnTypes := ∅; columnSourceTypes := ∅;
     stmt := Some {| stClient := Some client_down; stLimit := 0;
                     stInput := Some input_example;
                     stOutput := Some {| ResultMetadata := 1;
                                         OutputConsumedCapacity := None;
                                         Items := [item_a; item_b]; NextToken := None |} |};
     read := 0; items := [item_a; item_b] |}.

(** The request of a fetch: the request before it, with the continuation
    token of the last output. *)
Definition withNextToken (input : ExecuteStatementInput) (tok : string)
    : ExecuteStatementInput :=
  {| Statement := Statement input; Parameters := Parameters input;
     ConsistentRead := ConsistentRead input; InputNextToken := Some tok;
     Limit := Limit input |}.

(** A service that has one more page, the last one. *)
Definition client_one_more : Client :=
  {| CreateTable := λ _ _, None;
     ExecuteStatement := λ _ _,
       (Some {| ResultMetadata := 2; OutputConsumedCapacity := None;
                Items := [item_b]; NextToken := None |}, None);
     ExecuteTransaction := λ _ _, (None, Some (TransportError "not used")) |}.

Definition rows_page_used : ResultResultSet :=
  {| err := None; columnList := ["id"]; columnTypes := ∅; columnSourceTypes := ∅;
     stmt := Some {| stClient := Some client_one_more; stLimit := 0;
                     stInput := Some input_example;
                     stOutput := Some {| ResultMetadata := 1;
                                         OutputConsumedCapacity := None;
                                         Items := [item_a]; NextToken := Some "t1" |} |};
     read := 1; items := [] |}.

(** ** [stmt_table.go]: DROP TABLE and LIST TABLES

    The two calls these statements make to the client, with the log of the
    calls made before. *)

Record ListTablesOutput : Type := {
  TableNames : list string;
}.

Inductive tableCall : Type :=
| CallDeleteTable (table : string)
| CallListTables.

Record TableClient : Type := {
  DeleteTable : list tableCall → string → option error;
  ListTables : list tableCall → option ListTablesOutput * option error;
}.

(** [StmtDropTable] *)
Record StmtDropTable : Type := {
  dropBase : Stmt;
  dropTableName : string;
  ifExists : bool;
}.

(** [StmtDropTable.validate] *)
Definition validateDropTable (s : StmtDropTable) : option error :=
  if bool_decide (dropTableName s = "") then Some (Errorf "table name is missing") else None.

(** The branch of [parseQuery] for DROP TABLE, from the groups of the match
    of [reDropTable] on. *)
Definition parseQuery_DropTable (q g2 g3 : string) : StmtDropTable * option error :=
  let stmt := {| dropBase := {| query := q; numInput := 0; limit := None; withOpts := ∅ |};
                 dropTableName := strings.TrimSpace g3;
                 ifExists := negb (bool_decide (strings.TrimSpace g2 = "")) |} in
  (stmt, validateDropTable stmt).

Record ResultDropTable : Type := {
  DropSuccessful : bool;
}.

(** [StmtDropTable.Exec] *)
Definition ExecDropTable (client : TableClient) (s : StmtDropTable) (log : list tableCall)
    : ResultDropTable * option error * list tableCall :=
  let err := DeleteTable client log (dropTableName s) in
  let log := log ++ [CallDeleteTable (dropTableName s)] in
  let result := {| DropSuccessful := bool_decide (err = None) |} in
  let err := if ifExists s && IsAwsError err "ResourceNotFoundException" then None else err in
  (result, err, log).

(** [ResultDropTable.RowsAffected] *)
Definition RowsAffectedDropTable (r : ResultDropTable) : Z * option error :=
  if DropSuccessful r then (1%Z, None) else (0%Z, None).

(** [RowsListTables].  The two counters are Go ints that count up from zero
    to the number of tables: they are natural numbers here. *)
Record RowsListTables : Type := {
  count : nat;
  tables : list string;
  cursorCount : nat;
}.

(** [StmtListTables.Query]: the rows, the error and the log. *)
Definition QueryListTables (client : TableClient) (log : list tableCall)
    : run (option RowsListTables * option error) * list tableCall :=
  let r := ListTables client log in
  let log := log ++ [CallListTables] in
  match r.2 with
  | None =>
    (output ←← deref r.1 ;;
     Done (Some {| count := length (TableNames output); tables := TableNames output;
                   cursorCount := 0 |}, None),
     log)
  | Some e => (Done (None, Some e), log)
  end.

(** [RowsListTables.Columns] *)
Definition ColumnsListTables (r : RowsListTables) : list string := ["$1"].

(** [RowsListTables.Next], for a [dest] of [ndest] places: the rows after
    the call, the error, and the name written to the first place. *)
Definition NextListTables (r : RowsListTables) (ndest : nat)
    : run (RowsListTables * option error * option string) :=
  if Nat.leb (count r) (cursorCount r) then Done (r, Some EOF, None)
  else
    rowData ←← index (tables r) (cursorCount r) ;;
    let r' := {| count := count r; tables := tables r; cursorCount := cursorCount r + 1 |} in
    if Nat.eqb ndest 0 then Panicked else Done (r', None, Some rowData).

(** The rows of [Query] after [k] names were read. *)
Definition listed (ts : list string) (k : nat) : RowsListTables :=
  {| count := length ts; tables := ts; cursorCount := k |}.

Definition client_two_tables : TableClient :=
  {| DeleteTable := λ _ _, Some (ApiError "ResourceNotFoundException" "no such table");
     ListTables := λ _, (Some {| TableNames := ["orders"; "users"] |}, None) |}.

(** ** [conn.go]: runs of a connection *)

(** The worlds a new connection reaches by calls of [BeginTx],
    [executeContext], [commit] and [rollback], one after the other. *)
Inductive reachable (client : Client)
    (ToAttributeValue : Value → AttributeValue * option error) (ToBool : string → bool)
    : World → Prop :=
| reachable_new : reachable client ToAttributeValue ToBool newWorld
| reachable_BeginTx (w : World) :
    reachable client ToAttributeValue ToBool w →
    reachable client ToAttributeValue ToBool (BeginTx w).1
| reachable_executeContext (w : World) (s : Stmt) (vs : list Value) :
    reachable client ToAttributeValue ToBool w →
    reachable client ToAttributeValue ToBool
      (executeContext client ToAttributeValue ToBool w s vs).1
| reachable_commit (w : World) :
    reachable client ToAttributeValue ToBool w →
    reachable client ToAttributeValue ToBool (commit client ToAttributeValue w).1
| reachable_rollback (w : World) :
    reachable client ToAttributeValue ToBool w →
    reachable client ToAttributeValue ToBool (rollback w).1.

(** The statements of the queue have no output yet. *)
Definition queue_pending (w : World) : Prop :=
  Forall (λ p, ∃ t, heap w !! p = Some t ∧ output t = None) (txStmtList (conn w)).

(** [executeContext] for the statements of a list in turn: the world after
    them and what each call returned. *)
Fixpoint executeAll (client : Client)
    (ToAttributeValue : Value → AttributeValue * option error) (ToBool : string → bool)
    (w : World) (l : list (Stmt * list Value))
    : World * list (option statementOutputWrapper * option error) :=
  match l with
  | [] => (w, [])
  | x :: l' =>
    let r := executeContext client ToAttributeValue ToBool w x.1 x.2 in
    let rs := executeAll client ToAttributeValue ToBool r.1 l' in
    (rs.1, r.2 :: rs.2)
  end.

(** The statement [executeContext] puts on the heap for a call. *)
Definition queued (x : Stmt * list Value) : txStmt :=
  {| txstmt := x.1; values := x.2; output := None |}.

(** The statements of the request of a commit for the calls of a list, when
    the codec accepts their values. *)
Definition txRequest (ToAttributeValue : Value → AttributeValue * option error)
    (l : list (Stmt * list Value)) : list ParameterizedStatement :=
  (λ x, {| TxStatement := query x.1;
           TxParameters := (λ v, (ToAttributeValue v).1) <$> x.2 |}) <$> l.

(** A codec that rejects every value. *)
Definition codec_rejects (v : Value) : AttributeValue * option error :=
  (AttributeValueMemberNULL true, Some (Errorf "unsupported value")).

(** A list of two calls, the values of which the codec accepts. *)
Definition calls_example : list (Stmt * list Value) :=
  [(stmt_update, [ValueString "a"]); (stmt_delete, [])].

(** A byte that is a lower-case ASCII letter, and a text without one. *)
Definition isLower (c : ascii) : bool := utf8.between 97 122 (utf8.byte c).

Fixpoint noLower (s : string) : bool :=
  match s with
  | EmptyString => true
  | String c s' => negb (isLower c) && noLower s'
  end.

(** * Properties *)

(** ** Strings *)

Lemma len_drop (n : nat) (s : string) :
  strings.len (strings.drop n s) = strings.len s - n.
Proof.
  revert s; induction n as [|n IH]; intros [|c s]; simpl; auto.
Qed.

Lemma drop_drop (n k : nat) (s : string) :
  strings.drop n (strings.drop k s) = strings.drop (k + n) s.
Proof.
  revert s; induction k as [|k IH]; intros s; simpl; auto.
  destruct s as [|c s]; simpl; auto. destruct n; reflexivity.
Qed.

Lemma len_substring (n k : nat) (s : string) :
  n + k ≤ strings.len s → strings.len (substring n k s) = k.
Proof.
  revert k s; induction n as [|n IH]; intros k s.
  - revert s; induction k as [|k IHk]; intros [|c s]; simpl; intros H; auto; try lia.
    f_equal. apply IHk. lia.
  - destruct s as [|c s]; simpl; intros H; [lia|]. apply IH. lia.
Qed.


(** A rune is at least one byte wide. *)
Lemma decode_shorter (s s' : string) (c : N) :
  utf8.DecodeRuneInString s = Some (c, s') → strings.len s' < strings.len s.
Proof.
  unfold utf8.DecodeRuneInString. intros H.
  repeat (case_match; simplify_eq; simpl in *; try lia).
Qed.

(** ** The matcher *)

Lemma step_total (p : N → bool) (st st' : mstate) :
  step p st = Some st' → total st' = total st ∧ pos st + 1 ≤ pos st'.
Proof.
  unfold step, total, width. intros H.
  repeat case_match; simplify_eq; simpl.
  match goal with H : utf8.DecodeRuneInString _ = _ |- _ => apply decode_shorter in H end.
  lia.
Qed.

(** A successful run of [exec] passes a state to its continuation that lies
    further in the same text, by at least [min_len] bytes. *)
Lemma exec_inv (fuel : nat) (r : regex) :
  ∀ (st : mstate) (k : mstate → option mstate) (m : mstate),
    exec fuel r st k = Some m →
    ∃ st', k st' = Some m ∧ total st' = total st ∧ pos st + min_len r ≤ pos st'.
Proof.
  induction r as [| | |p|r1 IH1 r2 IH2|r1 IH1 r2 IH2|r1 IH1|i r1 IH1]; intros st k m H; simpl in *.
  - exists st. split_and!; auto; lia.
  - destruct (atBol st); [|done]. exists st. split_and!; auto; lia.
  - destruct (atEol (rest st)); [|done]. exists st. split_and!; auto; lia.
  - destruct (step p st) as [st'|] eqn:E; [|done].
    apply step_total in E as [? ?]. exists st'. split_and!; auto.
  - apply IH1 in H as (st1 & H & T1 & P1).
    apply IH2 in H as (st2 & H & T2 & P2).
    exists st2. split_and!; auto; lia.
  - destruct (exec fuel r1 st k) eqn:E.
    + simplify_eq. apply IH1 in E as (st' & ? & ? & ?). exists st'. split_and!; auto; lia.
    + apply IH2 in H as (st' & ? & ? & ?). exists st'. split_and!; auto; lia.
  - revert st H. generalize fuel at 2. intros n. induction n as [|n IHn]; intros st H.
    + exists st. split_and!; auto; lia.
    + match type of H with match ?e with _ => _ end = _ => destruct e eqn:E end.
      * simplify_eq. apply IH1 in E as (st1 & E & T1 & P1).
        destruct (Nat.ltb (pos st) (pos st1)); [|done].
        apply IHn in E as (st2 & ? & ? & ?). exists st2. split_and!; auto; lia.
      * exists st. split_and!; auto; lia.
  - apply IH1 in H as (st1 & H & T1 & P1).
    eexists. split; [exact H|]. unfold total in *. simpl. split; auto.
Qed.

Lemma search_inv (fuel : nat) (re : regex) :
  ∀ (s : string) (bol : bool) (p b : nat) (m : mstate),
    search fuel re bol s p = Some (b, m) →
    p ≤ b ∧ total m = p + strings.len s ∧ b + min_len re ≤ pos m.
Proof.
  induction s as [|c s IH]; intros bol p b m H; simpl in H.
  - destruct (exec _ _ _ _) eqn:E; [|done]. simplify_eq.
    apply exec_inv in E as (st' & ? & T & P). simplify_eq.
    unfold total in *; simpl in *. lia.
  - destruct (exec _ _ _ _) eqn:E.
    + simplify_eq. apply exec_inv in E as (st' & ? & T & P). simplify_eq.
      unfold total in *; simpl in *. lia.
    + apply IH in H as (? & ? & ?). simpl. lia.
Qed.

(** The text of a match is no shorter than the pattern demands and no longer
    than the text searched. *)
Lemma FindStringSubmatch_len (re : regex) (n : nat) (text : string) (matches : list string) :
  FindStringSubmatch re n text = Some matches →
  min_len re ≤ strings.len (StringAt matches 0)
  ∧ strings.len (StringAt matches 0) ≤ strings.len text.
Proof.
  unfold FindStringSubmatch. destruct (search _ _ _ _ _) as [[b m]|] eqn:E; [|done].
  intros ?; simplify_eq. apply search_inv in E as (? & T & ?).
  unfold total in T. unfold StringAt; simpl. unfold strings.slice.
  rewrite len_substring; lia.
Qed.




(** ** [parseWithOpts] *)

Lemma min_len_reWithOpts : min_len reWithOpts = 9.
Proof. reflexivity. Qed.

(** The loop ends: every round drops at least nine bytes and at most the
    whole text. *)
Lemma parseWithOpts_loop_total (fuel : nat) :
  ∀ (s : string) (m : gmap string OptStrings),
    strings.len s < fuel → ∃ m', parseWithOpts_loop fuel s m = Done m'.
Proof.
  induction fuel as [|fuel IH]; intros s m Hlen; [lia|]. simpl.
  destruct (FindStringSubmatch reWithOpts 3 s) as [matches|] eqn:E; [|eauto].
  apply FindStringSubmatch_len in E as [Hmin Hmax]. rewrite min_len_reWithOpts in Hmin.
  unfold strings.slice_from. rewrite (proj2 (Nat.leb_le _ _) Hmax). simpl.
  apply IH. rewrite len_drop. lia.
Qed.

Lemma parseWithOpts_total (s : string) : ∃ m, parseWithOpts s = Done m.
Proof. apply parseWithOpts_loop_total. lia. Qed.










(** ** CREATE TABLE: what [parse] reads from the options *)

Lemma SplitN_cons (s sep : string) (n : nat) :
  ∃ h t, strings.SplitN s sep (S n) = h :: t.
Proof.
  destruct n; simpl; [eauto|]. destruct (strings.Cut s sep) as [[b a]|]; eauto.
Qed.

Section CreateTableFacts.

Variable dataTypes : gmap string string.
Variable keyTypes : gmap string string.

Lemma parseLSI_eq (v : string) :
  parseLSI dataTypes v
  = Done (match lsiCheck dataTypes (lsiOf v) with
          | Some e => inr e
          | None => inl (lsiOf v)
          end).
Proof.
  unfold parseLSI, lsiOf, lsiCheck, errLSIField, errLSIType, StringAt, index.
  destruct (SplitN_cons v ":" 3) as (h & t & ->).
  destruct t as [|t1 [|t2 [|t3 t]]]; simpl;
    repeat (case_bool_decide; simplify_eq; simpl; try done);
    destruct (is_dataType _ _); simpl; done.
Qed.

Lemma parseLSIs_eq (l : list string) :
  ∀ acc, ∃ ds,
    parseLSIs dataTypes l acc = Done (ds, lsiChecks dataTypes l)
    ∧ (lsiChecks dataTypes l = None → ds = acc ++ (lsiOf <$> l)).
Proof.
  induction l as [|v l IH]; intros acc; simpl.
  - exists acc. split; [done|]. intros _. by rewrite app_nil_r.
  - rewrite parseLSI_eq. destruct (lsiCheck dataTypes (lsiOf v)) as [e|]; simpl.
    + exists acc. done.
    + destruct (IH (acc ++ [lsiOf v])) as (ds & -> & Hds). exists ds. split; [done|].
      intros H. rewrite (Hds H), <- app_assoc. done.
Qed.

End CreateTableFacts.

Section ParseFacts.

Variable dataTypes : gmap string string.
Variable keyTypes : gmap string string.

(** [parse] on a statement fresh from [parseQuery]: it returns, never
    panics, and its error is the first check that fails. *)
Lemma parse_fresh (q : string) (ifne : bool) (table o : string) :
  ∃ m s,
    parseWithOpts o = Done m
    ∧ parse dataTypes (newStmtCreateTable q ifne table o) = Done (s, parseChecks dataTypes m)
    ∧ withOpts (base s) = m ∧ tableName s = table ∧ ifNotExists s = ifne
    ∧ pkName s = keyName (FirstString (opts m "PK"))
    ∧ pkType s = keyTag (FirstString (opts m "PK"))
    ∧ (parseChecks dataTypes m = None →
       skName s = keyName (FirstString (opts m "SK"))
       ∧ skType s = keyTag (FirstString (opts m "SK"))
       ∧ lsi s = lsiOf <$> opts m "LSI"
       ∧ parseCapacity "RCU" m 0 = inl (rcu s)
       ∧ parseCapacity "WCU" m 0 = inl (wcu s)).
Proof.
  destruct (parseWithOpts_total o) as [m Hm]. exists m.
  unfold parse, parseChecks, keyName, keyTag, errNoPK, errPKType, errSKType, StringAt.
  cbn [withOptsStr newStmtCreateTable]. rewrite Hm. simpl.
  destruct (parseLSIs_eq dataTypes (opts m "LSI") []) as (ds & Hp & Hds).
  repeat match goal with
  | |- context [strings.Cut ?x ?y] => destruct (strings.Cut x y) as [[? ?]|]; simpl
  | |- context [is_dataType ?d ?t] => destruct (is_dataType d t) eqn:?; simpl
  | |- context [bool_decide ?P] => destruct (bool_decide P) eqn:?; simpl
  | |- context [parseLSIs _ _ _] => rewrite Hp; simpl
  | |- context [lsiChecks ?d ?l] => destruct (lsiChecks d l) eqn:?; simpl
  | |- context [parseCapacity ?n ?x ?y] => destruct (parseCapacity n x y) eqn:?; simpl
  end;
  (eexists; split; [done|]; split; [reflexivity|]; split_and!; try done;
   intros _; rewrite Hds by done; split_and!; done).
Qed.

Lemma parseCapacity_inl (name : string) (m : gmap string OptStrings) (n : Z) :
  parseCapacity name m 0 = inl n →
  (m !! name = None ∧ n = 0%Z)
  ∨ (∃ l, m !! name = Some l ∧ strconv.ParseInt (FirstString l) = Some n ∧ (0 < n)%Z).
Proof.
  unfold parseCapacity, opts. destruct (m !! name) as [l|]; simpl.
  - destruct (strconv.ParseInt (FirstString l)) as [k|] eqn:E; [|done].
    destruct (Z.leb_spec k 0); [done|]. intros [= <-]. right. exists l. split_and!; auto.
  - intros [= <-]. by left.
Qed.

Lemma parseCapacity_inr (name : string) (m : gmap string OptStrings) (e : error) :
  parseCapacity name m 0 = inr e →
  ∃ l, m !! name = Some l
       ∧ e = Errorf ("invalid " +:+ name +:+ " value: " +:+ fmt_strings l)
       ∧ ∀ n, strconv.ParseInt (FirstString l) = Some n → (n ≤ 0)%Z.
Proof.
  unfold parseCapacity, opts. destruct (m !! name) as [l|]; simpl; [|done].
  intros H. exists l. split; [done|].
  destruct (strconv.ParseInt (FirstString l)) as [k|] eqn:E.
  - destruct (Z.leb_spec k 0); [|done]. injection H as <-. split; [done|].
    intros n [= <-]. done.
  - injection H as <-. done.
Qed.

Lemma lsiChecks_None (l : list string) (v : string) :
  lsiChecks dataTypes l = None → v ∈ l → lsiCheck dataTypes (lsiOf v) = None.
Proof.
  induction l as [|x l IH]; simpl; intros H Hin; [by apply elem_of_nil in Hin|].
  destruct (lsiCheck dataTypes (lsiOf x)) eqn:E; [done|].
  apply elem_of_cons in Hin as [->|Hin]; auto.
Qed.

Lemma parseChecks_None (m : gmap string OptStrings) :
  parseChecks dataTypes m = None →
  keyName (FirstString (opts m "PK")) ≠ ""
  ∧ is_dataType dataTypes (keyTag (FirstString (opts m "PK"))) = true
  ∧ (keyName (FirstString (opts m "SK")) ≠ "" →
     is_dataType dataTypes (keyTag (FirstString (opts m "SK"))) = true)
  ∧ lsiChecks dataTypes (opts m "LSI") = None.
Proof.
  unfold parseChecks.
  case_bool_decide as Hpk; [done|].
  destruct (is_dataType dataTypes (keyTag (FirstString (opts m "PK")))); simpl; [|done].
  destruct (is_dataType dataTypes (keyTag (FirstString (opts m "SK")))); simpl.
  - destruct (lsiChecks dataTypes (opts m "LSI")); [done|]. done.
  - case_bool_decide as Hsk; simpl; [done|].
    destruct (lsiChecks dataTypes (opts m "LSI")); [done|].
    intros _. split_and!; try done.
Qed.

End ParseFacts.

(** ** CREATE TABLE: the order of the checks *)

Section ParseOrder.

Variable dataTypes : gmap string string.

Lemma lsiCheck_passes (v : string) :
  lsiCheck dataTypes (lsiOf v) = None ↔ lsiPasses dataTypes v.
Proof.
  unfold lsiCheck, lsiPasses. case_bool_decide as Hn; [by split; [left|]|].
  case_bool_decide as Hf.
  - split; [done|]. intros [?|[? _]]; done.
  - destruct (is_dataType dataTypes (fieldType (lsiOf v))).
    + split; [by right|done].
    + split; [done|]. intros [?|[_ ?]]; done.
Qed.

Lemma lsiChecks_passes (l : list string) :
  lsiChecks dataTypes l = None ↔ Forall (lsiPasses dataTypes) l.
Proof.
  induction l as [|v l IH]; simpl; [by split; [constructor|]|].
  rewrite Forall_cons, <- IH, <- lsiCheck_passes.
  destruct (lsiCheck dataTypes (lsiOf v));
    [split; [done|by intros [? ?]]|split; [by intros ?|by intros [? ?]]].
Qed.

(** The error of the LSI options is that of the first value that fails. *)
Lemma lsiChecks_first (l : list string) :
  ∀ (i : nat) (v : string) (e : error),
    l !! i = Some v →
    (∀ j v', j < i → l !! j = Some v' → lsiPasses dataTypes v') →
    lsiCheck dataTypes (lsiOf v) = Some e →
    lsiChecks dataTypes l = Some e.
Proof.
  induction l as [|x l IH]; intros i v e Hi Hbefore He; [done|]. simpl.
  destruct i as [|i]; simpl in Hi.
  - simplify_eq. by rewrite He.
  - assert (lsiCheck dataTypes (lsiOf x) = None) as ->.
    { apply lsiCheck_passes, (Hbefore 0 x); [lia|done]. }
    apply (IH i v e Hi); [|done].
    intros j v' Hj Hv'. apply (Hbefore (S j) v'); [lia|done].
Qed.

Lemma parseCapacity_passes (name : string) (m : gmap string OptStrings) :
  (∃ n, parseCapacity name m 0 = inl n) ↔ capacityPasses name m.
Proof.
  unfold parseCapacity, capacityPasses, opts. destruct (m !! name) as [l|]; simpl.
  - destruct (strconv.ParseInt (FirstString l)) as [k|] eqn:E.
    + destruct (Z.leb_spec k 0).
      * split; [by intros [? ?]|]. intros Hc.
        destruct (Hc l eq_refl) as (n & Hn & ?). rewrite E in Hn. injection Hn as <-. lia.
      * split; [|by eauto]. intros _ l' [= <-]. exists k. split; [exact E|lia].
    + split; [by intros [? ?]|]. intros Hc.
      destruct (Hc l eq_refl) as (n & Hn & ?). by rewrite E in Hn.
  - split; [done|by eauto].
Qed.

Lemma parseCapacity_fails (name : string) (m : gmap string OptStrings) (l : OptStrings) :
  m !! name = Some l → notPositive l →
  parseCapacity name m 0 = inr (errCapacity name l).
Proof.
  intros Hl Hbad. unfold parseCapacity, opts, errCapacity. rewrite Hl. simpl.
  destruct (strconv.ParseInt (FirstString l)) as [k|] eqn:E; [|done].
  specialize (Hbad k E). by rewrite (proj2 (Z.leb_le _ _) Hbad).
Qed.

(** The checks of [parse] after those of the keys. *)
Lemma parseChecks_keys (m : gmap string OptStrings) :
  pkPasses dataTypes m → skPasses dataTypes m →
  parseChecks dataTypes m
  = match lsiChecks dataTypes (opts m "LSI") with
    | Some e => Some e
    | None =>
      match parseCapacity "RCU" m 0 with
      | inr e => Some e
      | inl _ =>
        match parseCapacity "WCU" m 0 with
        | inr e => Some e
        | inl _ => None
        end
      end
    end.
Proof.
  intros [Hn Ht] Hsk. unfold parseChecks.
  rewrite bool_decide_eq_false_2 by done. rewrite Ht. simpl.
  destruct Hsk as [Hsk|Hsk].
  - rewrite (bool_decide_eq_false_2 (keyName (FirstString (opts m "SK")) ≠ ""))
      by (intros H; by apply H).
    by rewrite andb_false_r.
  - by rewrite Hsk.
Qed.

Lemma parseChecks_passes (m : gmap string OptStrings) :
  parseChecks dataTypes m = None
  ↔ pkPasses dataTypes m ∧ skPasses dataTypes m
    ∧ Forall (lsiPasses dataTypes) (opts m "LSI")
    ∧ capacityPasses "RCU" m ∧ capacityPasses "WCU" m.
Proof.
  split.
  - intros H. pose proof H as H'.
    apply parseChecks_None in H' as (Hn & Ht & Hsk & Hl).
    assert (pkPasses dataTypes m) as Hpk by done.
    assert (skPasses dataTypes m) as Hsk'.
    { unfold skPasses. destruct (decide (keyName (FirstString (opts m "SK")) = ""));
        [by left|right; auto]. }
    rewrite (parseChecks_keys m Hpk Hsk'), Hl in H.
    split; [done|]. split; [done|]. split; [by apply lsiChecks_passes|].
    destruct (parseCapacity "RCU" m 0) as [n|] eqn:Hr; [|done].
    destruct (parseCapacity "WCU" m 0) as [n'|] eqn:Hw; [|done].
    split; apply parseCapacity_passes; eauto.
  - intros (Hpk & Hsk & Hl & Hr & Hw). rewrite (parseChecks_keys m Hpk Hsk).
    apply lsiChecks_passes in Hl as ->.
    apply parseCapacity_passes in Hr as [n ->].
    by apply parseCapacity_passes in Hw as [n' ->].
Qed.

End ParseOrder.

(** ** CREATE TABLE: the capacity options *)

Section CreateTableClaims.

Variable dataTypes : gmap string string.
Variable keyTypes : gmap string string.

Lemma lsiChecks_not_capacity (l : list string) (name : string) (vs : OptStrings) :
  name = "RCU" ∨ name = "WCU" → lsiChecks dataTypes l ≠ Some (errCapacity name vs).
Proof.
  intros Hn. induction l as [|v l IH]; simpl; [done|].
  unfold lsiCheck, errLSIField, errLSIType, errCapacity.
  repeat case_match; try done; destruct Hn as [-> | ->]; intros ?; simplify_eq/=.
Qed.

Lemma parseChecks_capacity (m : gmap string OptStrings) (name : string) (l : OptStrings) :
  name = "RCU" ∨ name = "WCU" →
  parseChecks dataTypes m = Some (errCapacity name l) → is_Some (m !! name).
Proof.
  intros Hname. unfold parseChecks, errNoPK, errPKType, errSKType.
  repeat (case_match; try (destruct Hname as [-> | ->]; intros ?; simplify_eq/=; fail)).
  all: intros He; simplify_eq.
  - match goal with H : lsiChecks _ _ = Some _ |- _ =>
      by apply lsiChecks_not_capacity in H end.
  - match goal with H : parseCapacity _ _ _ = inr _ |- _ =>
      apply parseCapacity_inr in H as (l' & Hl' & He & _) end.
    unfold errCapacity in He. destruct Hname as [-> | ->]; simplify_eq/=. eauto.
  - match goal with H : parseCapacity _ _ _ = inr _ |- _ =>
      apply parseCapacity_inr in H as (l' & Hl' & He & _) end.
    unfold errCapacity in He. destruct Hname as [-> | ->]; simplify_eq/=. eauto.
Qed.

(** X15.  The capacity options of CREATE TABLE.  [parse] returns for every
    statement.  An RCU or WCU option whose first value is no positive
    integer (zero, negative or no integer) makes [parse] fail: when the keys
    and the LSI definitions pass their checks the error is the invalid RCU
    value error with the values of the option, and when the RCU option
    passes too, the invalid WCU value error.  No such error arises from an
    option that is absent.  When [parse] succeeds the capacity stored is the
    integer given, and zero for an absent option; the request is built with
    on-demand billing when both options are absent, and in provisioned mode
    with exactly those two capacities when either is present. *)
Theorem parse_capacity_billing (q : string) (ifne : bool) (table o : string) :
  ∃ m s err,
    parseWithOpts o = Done m
    ∧ parse dataTypes (newStmtCreateTable q ifne table o) = Done (s, err)
    ∧ (∀ name l, name = "RCU" ∨ name = "WCU" → m !! name = Some l →
         notPositive l → err ≠ None)
    ∧ (pkPasses dataTypes m → skPasses dataTypes m →
       Forall (lsiPasses dataTypes) (opts m "LSI") →
       (∀ l, m !! "RCU" = Some l → notPositive l → err = Some (errCapacity "RCU" l))
       ∧ (capacityPasses "RCU" m →
          ∀ l, m !! "WCU" = Some l → notPositive l → err = Some (errCapacity "WCU" l)))
    ∧ (∀ name l, name = "RCU" ∨ name = "WCU" →
         err = Some (errCapacity name l) → is_Some (m !! name))
    ∧ (err = None →
       let input := createTableInput dataTypes keyTypes s in
       (m !! "RCU" = None ∧ rcu s = 0%Z
        ∨ ∃ l, m !! "RCU" = Some l
               ∧ strconv.ParseInt (FirstString l) = Some (rcu s) ∧ (0 < rcu s)%Z)
       ∧ (m !! "WCU" = None ∧ wcu s = 0%Z
          ∨ ∃ l, m !! "WCU" = Some l
                 ∧ strconv.ParseInt (FirstString l) = Some (wcu s) ∧ (0 < wcu s)%Z)
       ∧ (m !! "RCU" = None → m !! "WCU" = None →
          InputBillingMode input = BillingModePayPerRequest
          ∧ InputProvisionedThroughput input = None)
       ∧ (is_Some (m !! "RCU") ∨ is_Some (m !! "WCU") →
          InputBillingMode input = BillingModeUnset
          ∧ InputProvisionedThroughput input
            = Some {| ReadCapacityUnits := rcu s; WriteCapacityUnits := wcu s |})).
Proof.
  destruct (parse_fresh dataTypes q ifne table o)
    as (m & s & Hm & Hp & _ & _ & _ & _ & _ & Hok).
  exists m, s, (parseChecks dataTypes m). split_and!; try done.
  - intros name l Hname Hl Hbad Hnone.
    destruct (Hok Hnone) as (_ & _ & _ & Hr & Hw).
    destruct Hname as [-> | ->].
    + apply parseCapacity_inl in Hr as [[Hr _]|(l' & Hr & Hn & Hpos)]; simplify_eq.
      specialize (Hbad _ Hn). lia.
    + apply parseCapacity_inl in Hw as [[Hw _]|(l' & Hw & Hn & Hpos)]; simplify_eq.
      specialize (Hbad _ Hn). lia.
  - intros Hpk Hsk Hl. rewrite (parseChecks_keys _ m Hpk Hsk).
    apply lsiChecks_passes in Hl as ->. split.
    + intros l Hr Hbad. by rewrite (parseCapacity_fails _ _ _ Hr Hbad).
    + intros Hr l Hw Hbad. apply parseCapacity_passes in Hr as [n ->].
      by rewrite (parseCapacity_fails _ _ _ Hw Hbad).
  - intros name l Hname. by apply parseChecks_capacity.
  - intros Hnone. destruct (Hok Hnone) as (_ & _ & _ & Hr & Hw).
    apply parseCapacity_inl in Hr. apply parseCapacity_inl in Hw.
    split_and!; try done.
    + intros Hr0 Hw0.
      destruct Hr as [[_ Hr]|(? & ? & _)]; [|simplify_eq].
      destruct Hw as [[_ Hw]|(? & ? & _)]; [|simplify_eq].
      unfold createTableInput. simpl. rewrite Hr, Hw. done.
    + intros Hsome. unfold createTableInput. simpl.
      assert (bool_decide (rcu s = 0%Z) && bool_decide (wcu s = 0%Z) = false) as ->; [|done].
      apply andb_false_iff.
      destruct Hsome as [[l Hl]|[l Hl]].
      * left. destruct Hr as [[Hr _]|(? & _ & _ & ?)]; [simplify_eq|].
        apply bool_decide_eq_false. lia.
      * right. destruct Hw as [[Hw _]|(? & _ & _ & ?)]; [simplify_eq|].
        apply bool_decide_eq_false. lia.
Qed.

End CreateTableClaims.

Section TypeTagFacts.

Variable dataTypes : gmap string string.

Lemma lsiCheck_unnamed (d : lsiDef) : indexName d = "" → lsiCheck dataTypes d = None.
Proof. intros H. unfold lsiCheck. by rewrite bool_decide_eq_true_2. Qed.

End TypeTagFacts.

Section TypeTags.

Variable dataTypes : gmap string string.

(** C9, as amended.  [parse], on the statement [parseQuery] builds, accepts
    a type tag, read in upper case, exactly when the table [dataTypes] of
    the package holds it, and it checks the tags in the order partition
    key, sort key, LSI definitions.  A partition key without a name fails
    with the error that says so; a tag of the partition key that the table
    does not hold fails with an error that names the tag and the partition
    key.  After a partition key that passes, a tag of a sort key with a name
    that the table does not hold fails with an error that names the tag and
    the sort key.  After keys that pass, the first LSI definition that has
    an index name and fails decides the error: it names the index and its
    empty field name, or the tag and the index.  The tag of a sort key
    without a name and of an LSI definition without an index name is not
    checked: when the keys and the definitions pass with those left out, the
    error is nil or one of a capacity option.  After a [parse] without
    error every tag that was checked is one of the table.  An error is what
    [parseQuery] returns, with no statement to execute, so before any call
    to the service. *)
Theorem parse_type_tags (q g1 g2 g3 : string) :
  let stmt := newStmtCreateTable q (negb (bool_decide (strings.TrimSpace g1 = "")))
                (strings.TrimSpace g2) (" " +:+ strings.TrimSpace g3) in
  ∃ m s err,
    parseWithOpts (withOptsStr stmt) = Done m
    ∧ parse dataTypes stmt = Done (s, err)
    ∧ (keyName (FirstString (opts m "PK")) = "" → err = Some errNoPK)
    ∧ (keyName (FirstString (opts m "PK")) ≠ "" →
       is_dataType dataTypes (keyTag (FirstString (opts m "PK"))) = false →
       err = Some (errPKType (keyTag (FirstString (opts m "PK")))))
    ∧ (pkPasses dataTypes m →
       keyName (FirstString (opts m "SK")) ≠ "" →
       is_dataType dataTypes (keyTag (FirstString (opts m "SK"))) = false →
       err = Some (errSKType (keyTag (FirstString (opts m "SK")))))
    ∧ (pkPasses dataTypes m → skPasses dataTypes m →
       ∀ i v, opts m "LSI" !! i = Some v →
         (∀ j v', j < i → opts m "LSI" !! j = Some v' → lsiPasses dataTypes v') →
         indexName (lsiOf v) ≠ "" →
         (fieldName (lsiOf v) = "" → err = Some (errLSIField (indexName (lsiOf v))))
         ∧ (fieldName (lsiOf v) ≠ "" →
            is_dataType dataTypes (fieldType (lsiOf v)) = false →
            err = Some (errLSIType (fieldType (lsiOf v)) (indexName (lsiOf v)))))
    ∧ (pkPasses dataTypes m → skPasses dataTypes m →
       Forall (lsiPasses dataTypes) (opts m "LSI") →
       err = None
       ∨ ∃ name l, (name = "RCU" ∨ name = "WCU") ∧ err = Some (errCapacity name l))
    ∧ (err = None →
       pkName s ≠ "" ∧ is_dataType dataTypes (pkType s) = true
       ∧ (skName s ≠ "" → is_dataType dataTypes (skType s) = true)
       ∧ Forall (λ d, indexName d ≠ "" →
                      fieldName d ≠ "" ∧ is_dataType dataTypes (fieldType d) = true)
           (lsi s))
    ∧ (err ≠ None → parseQuery_CreateTable dataTypes q g1 g2 g3 = Done (None, err)).
Proof.
  intros stmt. unfold stmt.
  destruct (parse_fresh dataTypes q (negb (bool_decide (strings.TrimSpace g1 = "")))
              (strings.TrimSpace g2) (" " +:+ strings.TrimSpace g3))
    as (m & s & Hm & Hp & _ & _ & _ & Hpkn & Hpkt & Hok).
  exists m, s, (parseChecks dataTypes m). split_and!; try done.
  - intros Hn. unfold parseChecks. by rewrite bool_decide_eq_true_2.
  - intros Hn Ht. unfold parseChecks. rewrite bool_decide_eq_false_2 by done.
    by rewrite Ht.
  - intros [Hn Ht] Hskn Hskt. unfold parseChecks.
    rewrite bool_decide_eq_false_2 by done. rewrite Ht, Hskt. simpl.
    by rewrite bool_decide_eq_true_2.
  - intros Hpk Hsk i v Hi Hbefore Hidx. rewrite (parseChecks_keys _ m Hpk Hsk).
    split.
    + intros Hf. rewrite (lsiChecks_first dataTypes _ i v (errLSIField (indexName (lsiOf v))));
        try done.
      unfold lsiCheck. rewrite bool_decide_eq_false_2 by done.
      by rewrite bool_decide_eq_true_2.
    + intros Hf Ht.
      rewrite (lsiChecks_first dataTypes _ i v
                 (errLSIType (fieldType (lsiOf v)) (indexName (lsiOf v)))); try done.
      unfold lsiCheck. rewrite !bool_decide_eq_false_2 by done. by rewrite Ht.
  - intros Hpk Hsk Hl. rewrite (parseChecks_keys _ m Hpk Hsk).
    apply lsiChecks_passes in Hl as ->.
    destruct (parseCapacity "RCU" m 0) as [n|e] eqn:Hr.
    + destruct (parseCapacity "WCU" m 0) as [n'|e] eqn:Hw; [by left|].
      apply parseCapacity_inr in Hw as (l & _ & -> & _). right. exists "WCU", l. auto.
    + apply parseCapacity_inr in Hr as (l & _ & -> & _). right. exists "RCU", l. auto.
  - intros Hnone. destruct (Hok Hnone) as (Hskn & Hskt & Hlsi & _).
    apply parseChecks_passes in Hnone as ([Hn Ht] & Hsk & Hl & _).
    rewrite Hpkn, Hpkt, Hskn, Hskt, Hlsi. split_and!; try done.
    + intros Hnamed. by destruct Hsk.
    + apply Forall_fmap. eapply Forall_impl; [exact Hl|].
      intros v [Hu|Hv] Hnamed; simpl in *; done.
  - intros Herr. unfold parseQuery_CreateTable. rewrite Hp. simpl.
    destruct (parseChecks dataTypes m); done.
Qed.

End TypeTags.

(** An LSI option whose value starts with the colon has no index name. *)
Lemma lsiOf_colon (rest : string) : indexName (lsiOf (String ":" rest)) = "".
Proof. destruct rest; reflexivity. Qed.

Section UnnamedLSI.

Variable dataTypes : gmap string string.
Variable keyTypes : gmap string string.

(** C10, as amended.  An LSI option whose value has nothing before its first
    colon gives a definition with an empty index name, and [parse] does not
    check the field name and the type tag of such a definition: its round of
    the loop appends the definition, whatever they are.  So [parse] returns
    no error exactly when the partition key, the sort key, the LSI
    definitions that have an index name and the capacity options pass their
    checks.  When it returns no error, the definition with the empty index
    name stands in the list of the statement at the place of its option
    among the LSI options, and [Exec] sends it to the service: at that place
    the request has an index with the empty name, keyed on the partition key
    and on the field of the definition, with the projection of the
    definition, and after the attributes of the keys, at that place, the
    attribute of the field with the type the table gives for its tag. *)
Theorem parse_keeps_unnamed_lsi (q : string) (ifne : bool) (table o : string) :
  ∃ m s err,
    parseWithOpts o = Done m
    ∧ parse dataTypes (newStmtCreateTable q ifne table o) = Done (s, err)
    ∧ (∀ rest, indexName (lsiOf (String ":" rest)) = "")
    ∧ (∀ v, indexName (lsiOf v) = "" → parseLSI dataTypes v = Done (inl (lsiOf v)))
    ∧ (err = None
       ↔ pkPasses dataTypes m ∧ skPasses dataTypes m
         ∧ (∀ v, v ∈ opts m "LSI" → indexName (lsiOf v) ≠ "" →
              fieldName (lsiOf v) ≠ ""
              ∧ is_dataType dataTypes (fieldType (lsiOf v)) = true)
         ∧ capacityPasses "RCU" m ∧ capacityPasses "WCU" m)
    ∧ (err = None →
       ∀ i v, opts m "LSI" !! i = Some v → indexName (lsiOf v) = "" →
         lsi s !! i = Some (lsiOf v)
         ∧ let input := createTableInput dataTypes keyTypes s in
           (∀ client log,
              (Exec dataTypes keyTypes client s log).2 = log ++ [CallCreateTable input])
           ∧ LocalSecondaryIndexes input !! i
             = Some {| IndexName := "";
                       IndexKeySchema :=
                         [ {| KeyAttributeName := keyName (FirstString (opts m "PK"));
                              KeyType := keyType keyTypes "HASH" |};
                           {| KeyAttributeName := fieldName (lsiOf v);
                              KeyType := keyType keyTypes "RANGE" |} ];
                       IndexProjection := lsiProjection (lsiOf v) |}
           ∧ AttributeDefinitions input !! (length (KeySchema input) + i)
             = Some {| AttributeName := fieldName (lsiOf v);
                       AttributeType := dataType dataTypes (fieldType (lsiOf v)) |}).
Proof.
  destruct (parse_fresh dataTypes q ifne table o)
    as (m & s & Hm & Hp & _ & _ & _ & Hpkn & _ & Hok).
  exists m, s, (parseChecks dataTypes m). split_and!; try done.
  - apply lsiOf_colon.
  - intros v Hv. rewrite parseLSI_eq, lsiCheck_unnamed; done.
  - rewrite parseChecks_passes. split.
    + intros (Hpk & Hsk & Hl & Hr & Hw). split_and!; try done.
      intros v Hin Hnamed. rewrite Forall_forall in Hl. by destruct (Hl v Hin).
    + intros (Hpk & Hsk & Hl & Hr & Hw). split_and!; try done.
      apply Forall_forall. intros v Hin. unfold lsiPasses.
      destruct (decide (indexName (lsiOf v) = "")); [by left|right; auto].
  - intros Hnone i v Hi Hv. destruct (Hok Hnone) as (_ & _ & Hlsi & _).
    split; [by rewrite Hlsi, list_lookup_fmap, Hi|].
    split; [reflexivity|]. unfold createTableInput.
    cbn [LocalSecondaryIndexes AttributeDefinitions KeySchema]. split.
    + rewrite Hlsi, list_lookup_fmap, list_lookup_fmap, Hi. simpl.
      unfold lsiIndex. by rewrite Hv, Hpkn.
    + rewrite Hlsi. case_bool_decide; simpl;
        rewrite ?lookup_app_r by (simpl; lia); simpl;
        [replace (2 + i - 2) with i by lia|replace (1 + i - 1) with i by lia];
        by rewrite !list_lookup_fmap, Hi.
Qed.

(** C1, as amended.  When the remote call of [Exec] fails, the result has
    its success flag false, so [RowsAffected] reports 0, whether the error is
    swallowed or not.  The error is swallowed, [Exec] returning nil, when the
    statement has the IF NOT EXISTS modifier and the failure is the
    resource-already-exists condition ResourceInUseException; in every other
    case the error of the service is returned as it is. *)
Theorem Exec_swallows_only_resource_in_use (client : Client) (s : StmtCreateTable)
    (log : list call) (e : error) :
  CreateTable client log (createTableInput dataTypes keyTypes s) = Some e →
  ∃ err,
    Exec dataTypes keyTypes client s log
    = ({| Successful := false |}, err,
       log ++ [CallCreateTable (createTableInput dataTypes keyTypes s)])
    ∧ RowsAffected {| Successful := false |} = (0%Z, None)
    ∧ (ifNotExists s = true → (∃ msg, e = ApiError "ResourceInUseException" msg) →
       err = None)
    ∧ (ifNotExists s = false ∨ (∀ msg, e ≠ ApiError "ResourceInUseException" msg) →
       err = Some e).
Proof.
  intros He. unfold Exec. rewrite He. eexists. split; [reflexivity|].
  split; [done|]. split.
  - intros -> [msg ->]. done.
  - intros [-> | Hne]; [done|].
    destruct (ifNotExists s); [|done]. simpl.
    destruct e; try done. case_bool_decide; [|done]. subst. by destruct (Hne msg).
Qed.

End UnnamedLSI.

(** ** CREATE TABLE: examples *)

Lemma stmt_if_not_exists_parsed :
  parse dataTypes_spec
    (newStmtCreateTable "CREATE TABLE IF NOT EXISTS t WITH PK=id:STRING" true "t"
       " WITH PK=id:STRING")
  = Done (stmt_if_not_exists, None).
Proof. vm_compute. reflexivity. Qed.

Lemma stmt_unnamed_lsi_parsed :
  parse dataTypes_spec
    (newStmtCreateTable "CREATE TABLE t WITH PK=id:STRING, WITH LSI=:f:FOO" false "t"
       " WITH PK=id:STRING, WITH LSI=:f:FOO")
  = Done (stmt_unnamed_lsi, None).
Proof. vm_compute. reflexivity. Defined.

(** C1, as stated, fails: on the second CREATE TABLE IF NOT EXISTS of a
    table the service answers ResourceInUseException; [Exec] returns no
    error, but the success flag of the result is false and [RowsAffected]
    reports 0, not 1. *)
Lemma Exec_if_not_exists_not_successful :
  ifNotExists stmt_if_not_exists = true
  ∧ Exec dataTypes_spec keyTypes_example client_table_exists stmt_if_not_exists []
    = ({| Successful := false |}, None,
       [CallCreateTable (createTableInput dataTypes_spec keyTypes_example stmt_if_not_exists)])
  ∧ RowsAffected {| Successful := false |} = (0%Z, None).
Proof. vm_compute. auto. Qed.

Lemma Exec_swallows_only_resource_in_use_witness :
  (Exec dataTypes_spec keyTypes_example client_table_exists stmt_if_not_exists []).1.2 = None
  ∧ (Exec dataTypes_spec keyTypes_example client_table_exists stmt_unnamed_lsi []).1.2
    = Some (ApiError "ResourceInUseException" "Table already exists: t").
Proof.
  split.
  - destruct (Exec_swallows_only_resource_in_use dataTypes_spec keyTypes_example
                client_table_exists stmt_if_not_exists []
                (ApiError "ResourceInUseException" "Table already exists: t") eq_refl)
      as (err & -> & _ & Hmask & _).
    simpl. apply Hmask; [reflexivity|]. eexists. reflexivity.
  - destruct (Exec_swallows_only_resource_in_use dataTypes_spec keyTypes_example
                client_table_exists stmt_unnamed_lsi []
                (ApiError "ResourceInUseException" "Table already exists: t") eq_refl)
      as (err & -> & _ & _ & Hkeep).
    simpl. apply Hkeep. left. reflexivity.
Defined.

(** C2.  The claim, and the comment of [StmtCreateTable] in the source,
    have a table created with on-demand billing when RCU and WCU are both
    zero.  The code does not do so: with the RCU and the WCU option both
    zero [parse] rejects the RCU as an invalid value, [parseQuery] returns
    that error with no statement, and no request is built. *)
Lemma parse_rejects_zero_capacity :
  errorOf (parse dataTypes_spec
             (newStmtCreateTable "CREATE TABLE t WITH PK=id:STRING, WITH RCU=0, WITH WCU=0"
                false "t" " WITH PK=id:STRING, WITH RCU=0, WITH WCU=0"))
  = Done (Some (Errorf "invalid RCU value: [0]"))
  ∧ parseQuery_CreateTable dataTypes_spec
      "CREATE TABLE t WITH PK=id:STRING, WITH RCU=0, WITH WCU=0" "" "t"
      " WITH PK=id:STRING, WITH RCU=0, WITH WCU=0"
    = Done (None, Some (Errorf "invalid RCU value: [0]")).
Proof. vm_compute. auto. Qed.

Lemma parse_capacity_billing_witness :
  errorOf (parse dataTypes_spec
             (newStmtCreateTable "CREATE TABLE t WITH PK=id:STRING, WITH RCU=0" false "t"
                " WITH PK=id:STRING, WITH RCU=0"))
  = Done (Some (errCapacity "RCU" ["0"])).
Proof.
  destruct (parse_capacity_billing dataTypes_spec keyTypes_example
              "CREATE TABLE t WITH PK=id:STRING, WITH RCU=0" false "t"
              " WITH PK=id:STRING, WITH RCU=0")
    as (m & s & err & Hm & Hp & _ & Hcap & _).
  rewrite Hp. unfold errorOf. cbn [run_bind snd]. do 2 f_equal.
  vm_compute in Hm. injection Hm as <-.
  destruct Hcap as [Hr _].
  - split; [discriminate|reflexivity].
  - left. reflexivity.
  - apply Forall_nil_2.
  - apply Hr; [reflexivity|].
    intros n Hn. vm_compute in Hn. injection Hn as <-. lia.
Defined.

(** C9, as stated, fails: the table does not hold the tags FOO and BAR, yet
    [parse] accepts the statement, since the sort key has no name and the
    LSI definition no index name. *)
Lemma parse_accepts_unchecked_tags :
  let r := parse dataTypes_spec
             (newStmtCreateTable
                "CREATE TABLE t WITH PK=id:STRING, WITH SK=:FOO, WITH LSI=:f:BAR" false "t"
                " WITH PK=id:STRING, WITH SK=:FOO, WITH LSI=:f:BAR") in
  errorOf r = Done None
  ∧ skType <$> stmtOf r = Some "FOO"
  ∧ lsi <$> stmtOf r
    = Some [ {| indexName := ""; fieldName := "f"; fieldType := "BAR";
                projectedFields := "" |} ]
  ∧ is_dataType dataTypes_spec "FOO" = false
  ∧ is_dataType dataTypes_spec "BAR" = false.
Proof. vm_compute. auto 10. Qed.

(** Of two LSI definitions with a tag the table does not hold, the error
    names the first. *)
Lemma parse_type_tags_witness :
  parseQuery_CreateTable dataTypes_spec
    "CREATE TABLE t WITH PK=id:STRING, WITH LSI=a:f:FOO, WITH LSI=b:g:BAR" "" "t"
    " WITH PK=id:STRING, WITH LSI=a:f:FOO, WITH LSI=b:g:BAR"
  = Done (None, Some (errLSIType "FOO" "a")).
Proof.
  destruct (parse_type_tags dataTypes_spec
              "CREATE TABLE t WITH PK=id:STRING, WITH LSI=a:f:FOO, WITH LSI=b:g:BAR" "" "t"
              " WITH PK=id:STRING, WITH LSI=a:f:FOO, WITH LSI=b:g:BAR")
    as (m & s & err & Hm & Hp & _ & _ & _ & Hlsi & _ & _ & Hq).
  vm_compute in Hm. injection Hm as <-.
  assert (err = Some (errLSIType "FOO" "a")) as ->.
  { apply (Hlsi ltac:(split; [discriminate|reflexivity]) ltac:(left; reflexivity)
             0 "a:f:FOO" eq_refl); [intros j v' Hj; lia|discriminate|discriminate|reflexivity]. }
  apply Hq. discriminate.
Defined.

(** C10, as stated, fails: the statement below has an LSI option with an
    empty index name and no partition key.  [parse] returns the error of the
    partition key before it reads the LSI options, nothing is appended to
    the definitions of the statement, and [parseQuery] returns the error
    with no statement to execute. *)
Lemma parse_unnamed_lsi_without_key :
  let r := parse dataTypes_spec
             (newStmtCreateTable "CREATE TABLE t WITH LSI=:f:FOO" false "t"
                " WITH LSI=:f:FOO") in
  parseWithOpts " WITH LSI=:f:FOO" = Done {[ "LSI" := [":f:FOO"] ]}
  ∧ errorOf r = Done (Some errNoPK)
  ∧ lsi <$> stmtOf r = Some []
  ∧ parseQuery_CreateTable dataTypes_spec "CREATE TABLE t WITH LSI=:f:FOO" "" "t"
      " WITH LSI=:f:FOO"
    = Done (None, Some errNoPK).
Proof. vm_compute. auto 10. Qed.

Lemma parse_keeps_unnamed_lsi_witness :
  let input := createTableInput dataTypes_spec keyTypes_example stmt_unnamed_lsi in
    (Exec dataTypes_spec keyTypes_example client_table_exists stmt_unnamed_lsi []).2
    = [CallCreateTable input]
    ∧ LocalSecondaryIndexes input !! 0
      = Some {| IndexName := "";
                IndexKeySchema := [ {| KeyAttributeName := "id"; KeyType := "HASH" |};
                                    {| KeyAttributeName := "f"; KeyType := "RANGE" |} ];
                IndexProjection := {| ProjType := ProjectionTypeKeysOnly;
                                      NonKeyAttributes := [] |} |}
    ∧ AttributeDefinitions input !! 1
      = Some {| AttributeName := "f"; AttributeType := "" |}.
Proof.
  destruct (parse_keeps_unnamed_lsi dataTypes_spec keyTypes_example
              "CREATE TABLE t WITH PK=id:STRING, WITH LSI=:f:FOO" false "t"
              " WITH PK=id:STRING, WITH LSI=:f:FOO")
    as (m & s & err & Hm & Hp & _ & _ & _ & Hreq).
  vm_compute in Hm. injection Hm as <-.
  rewrite stmt_unnamed_lsi_parsed in Hp. injection Hp as <- <-.
  destruct (Hreq eq_refl 0 ":f:FOO" eq_refl eq_refl) as (_ & Hlog & Hidx & Hattr).
  split; [exact (Hlog client_table_exists [])|]. split; [exact Hidx|exact Hattr].
Defined.

(** ** The transaction of a connection *)

Lemma distribute_length (o : ExecuteTransactionOutput) (ptrs : list nat) :
  ∀ (k : nat) (h : list txStmt), length (distribute o k ptrs h) = length h.
Proof.
  induction ptrs as [|p ptrs IH]; intros k h; simpl; [done|].
  by rewrite IH, length_alter.
Qed.

Lemma distribute_other (o : ExecuteTransactionOutput) (ptrs : list nat) (p : nat) :
  ∀ (k : nat) (h : list txStmt), p ∉ ptrs → distribute o k ptrs h !! p = h !! p.
Proof.
  induction ptrs as [|p' ptrs IH]; intros k h Hp; simpl; [done|].
  apply not_elem_of_cons in Hp as [Hne Hp].
  rewrite IH by done. by rewrite list_lookup_alter_ne.
Qed.

(** The [i]-th pointer of the queue gets the [i]-th output. *)
Lemma distribute_lookup (o : ExecuteTransactionOutput) (ptrs : list nat) :
  ∀ (k : nat) (h : list txStmt) (i p : nat),
    NoDup ptrs → ptrs !! i = Some p →
    distribute o k ptrs h !! p = set_output (Some (txOutputAt o (k + i))) <$> h !! p.
Proof.
  induction ptrs as [|p' ptrs IH]; intros k h i p Hnd Hi; [done|].
  apply NoDup_cons in Hnd as [Hp' Hnd]. simpl. destruct i as [|i]; simpl in Hi.
  - simplify_eq. rewrite distribute_other by done.
    rewrite list_lookup_alter_eq. by rewrite Nat.add_0_r.
  - rewrite (IH (S k) _ i p) by done.
    assert (p ≠ p') as Hne.
    { intros ->. apply Hp'. by eapply list_elem_of_lookup_2. }
    rewrite list_lookup_alter_ne by done. by replace (S k + i) with (k + S i) by lia.
Qed.

Section ConnFacts.

Variable client : Client.
Variable ToAttributeValue : Value → AttributeValue * option error.
Variable ToBool : string → bool.

(** The statements of the request are those of the queue, in its order. *)
Lemma txStatements_lookup (h : list txStmt) (ptrs : list nat) :
  ∀ (stmts : list ParameterizedStatement),
    txStatements ToAttributeValue h ptrs = Done (inl stmts) →
    length stmts = length ptrs
    ∧ ∀ i p, ptrs !! i = Some p →
        ∃ t params,
          h !! p = Some t
          ∧ marshal ToAttributeValue (commitError (query (txstmt t))) (values t) 0 = inl params
          ∧ stmts !! i = Some {| TxStatement := query (txstmt t); TxParameters := params |}.
Proof.
  induction ptrs as [|p ptrs IH]; intros stmts H; simpl in H.
  - simplify_eq. split; [done|]. intros i p Hi. done.
  - destruct (h !! p) as [t|] eqn:Hp; simpl in H; [|done].
    destruct (marshal _ _ _ _) as [params|e] eqn:Hm; [|done].
    destruct (txStatements ToAttributeValue h ptrs) as [[l|e]| |] eqn:Hl; simpl in H; try done.
    simplify_eq. destruct (IH l eq_refl) as [Hlen Hi]. split; [simpl; by rewrite Hlen|].
    intros [|i] p' Hp'; simpl in Hp'.
    + simplify_eq. exists t, params. done.
    + apply Hi in Hp'. done.
Qed.

(** C3.  A commit of a started transaction with a queue that is not empty,
    whose parameters the codec accepts and which the service executes
    without error, returns nil.  The request holds the statements in the
    order of the queue, and the outputs go back by position: the [i]-th
    queued statement gets the metadata of the batch, the [i]-th capacity
    record when the batch has one, and the item of the [i]-th response, as
    the only row, when the batch has one; the function [executeContext]
    returned for that statement then yields this output. *)
Theorem commit_distributes_outputs (w : World) (stmts : list ParameterizedStatement)
    (o : ExecuteTransactionOutput) :
  tx (conn w) ≠ None →
  txMode (conn w) = txStarted →
  txStmtList (conn w) ≠ [] →
  NoDup (txStmtList (conn w)) →
  txStatements ToAttributeValue (heap w) (txStmtList (conn w)) = Done (inl stmts) →
  ExecuteTransaction client (calls w) {| TransactStatements := stmts |} = (Some o, None) →
  ∃ w',
    commit client ToAttributeValue w = (w', Done None)
    ∧ calls w' = calls w ++ [CallExecuteTransaction {| TransactStatements := stmts |}]
    ∧ length stmts = length (txStmtList (conn w))
    ∧ ∀ i p, txStmtList (conn w) !! i = Some p →
        ∃ t out,
          heap w !! p = Some t
          ∧ TxStatement <$> stmts !! i = Some (query (txstmt t))
          ∧ heap w' !! p = Some (set_output (Some out) t)
          ∧ ResultMetadata out = TxResultMetadata o
          ∧ OutputConsumedCapacity out = TxConsumedCapacity o !! i
          ∧ Items out = match Responses o !! i with
                        | Some r => [ResponseItem r]
                        | None => []
                        end
          ∧ NextToken out = None
          ∧ callWrapper w' (WrapQueued p)
            = Done {| stClient := None; stLimit := 0; stInput := None;
                      stOutput := Some out |}.
Proof.
  intros Htx Hmode Hne Hnd Hst Hex.
  destruct (txStatements_lookup _ _ _ Hst) as [Hlen Hstmts].
  unfold commit. destruct (tx (conn w)) as [t0|]; [|done].
  rewrite Hmode. simpl.
  rewrite bool_decide_eq_false_2 by (by destruct (txStmtList (conn w))).
  rewrite Hst, Hex. simpl. eexists. split; [reflexivity|]. simpl.
  split_and!; try done.
  intros i p Hi. destruct (Hstmts i p Hi) as (t & params & Hp & _ & Hsi).
  exists t, (txOutputAt o i). rewrite Hsi. unfold callWrapper. simpl.
  rewrite (distribute_lookup o _ 0 _ i p Hnd Hi), Hp. simpl. done.
Qed.

(** C4.  A commit from the started state leaves, however it ends (nil, an
    error of the codec, an error of the service, and even a panic), a
    connection without transaction, in mode none and with an empty queue, on
    which [BeginTx] starts a new transaction at once; and a commit with an
    empty queue returns nil without a call to the service. *)
Theorem commit_always_resets (w : World) :
  tx (conn w) ≠ None →
  txMode (conn w) = txStarted →
  let w' := (commit client ToAttributeValue w).1 in
  conn w' = noTx
  ∧ tx (conn w') = None ∧ txMode (conn w') = txNone ∧ txStmtList (conn w') = []
  ∧ (BeginTx w').2 = (Some MkTx, None)
  ∧ txMode (conn (BeginTx w').1) = txStarted
  ∧ txStmtList (conn (BeginTx w').1) = []
  ∧ (txStmtList (conn w) = [] →
     commit client ToAttributeValue w
     = ({| conn := noTx; heap := heap w; calls := calls w |}, Done None)).
Proof.
  intros Htx Hmode. unfold commit.
  destruct (tx (conn w)) as [t0|]; [|done]. rewrite Hmode. simpl.
  case_bool_decide as Hq.
  - simpl. split_and!; try done.
  - assert (txStmtList (conn w) ≠ []) as Hne by (by intros Hnil; rewrite Hnil in Hq).
    destruct (txStatements ToAttributeValue (heap w) (txStmtList (conn w))) as [[l|e]| |];
      simpl; [|split_and!; done..].
    destruct (ExecuteTransaction client (calls w) {| TransactStatements := l |}) as [out e].
    simpl. destruct e as [e|]; simpl; [split_and!; done|].
    destruct out as [o|]; simpl; split_and!; done.
Qed.


(** The invariant of a connection: every world that [BeginTx],
    [executeContext], [commit] and [rollback] make from one that is coherent
    and well formed is so too. *)
Lemma BeginTx_inv (w : World) :
  coherent (conn w) → wf_world w →
  coherent (conn (BeginTx w).1) ∧ wf_world (BeginTx w).1.
Proof.
  intros Hc Hwf. unfold BeginTx. destruct (tx (conn w)) eqn:Htx; [by split|].
  simpl. split; [split; simpl; [split; done|done]|].
  split; simpl; [apply NoDup_nil_2|apply Forall_nil_2].
Qed.

Lemma executeContext_inv (w : World) (s : Stmt) (vs : list Value) :
  coherent (conn w) → wf_world w →
  coherent (conn (executeContext client ToAttributeValue ToBool w s vs).1)
  ∧ wf_world (executeContext client ToAttributeValue ToBool w s vs).1.
Proof.
  intros [Hc1 Hc2] [Hnd Hv]. unfold executeContext.
  case_bool_decide as Hm; simpl.
  - split.
    + split; simpl; [done|]. intros Htx. apply Hc1 in Htx. congruence.
    + split; simpl.
      * apply NoDup_app. split_and!; [done| |apply NoDup_singleton].
        intros p Hp ->%list_elem_of_singleton.
        rewrite Forall_forall in Hv. apply Hv in Hp. lia.
      * apply Forall_app. split.
        -- eapply Forall_impl; [exact Hv|]. intros p Hp. simpl in Hp.
           rewrite length_app. simpl. lia.
        -- apply Forall_singleton. rewrite length_app. simpl. lia.
  - case_bool_decide; simpl; [done|].
    destruct (marshal _ _ _ _); simpl; done.
Qed.

Lemma commit_inv (w : World) :
  coherent (conn (commit client ToAttributeValue w).1)
  ∧ wf_world (commit client ToAttributeValue w).1
  ∨ (commit client ToAttributeValue w).1 = w.
Proof.
  assert (Hno : ∀ h l, coherent (conn {| conn := noTx; heap := h; calls := l |})
                       ∧ wf_world {| conn := noTx; heap := h; calls := l |}).
  { intros h l. split; [done|]. split; simpl; [apply NoDup_nil_2|apply Forall_nil_2]. }
  unfold commit. destruct (tx (conn w)); [|by right].
  destruct (bool_decide (txMode (conn w) = txRollingBack)); [by right|].
  destruct (bool_decide (txMode (conn w) ≠ txStarted)
            && bool_decide (txMode (conn w) ≠ txCommitting)); [by right|].
  destruct (bool_decide (length (txStmtList (conn w)) = 0)); [left; apply Hno|].
  destruct (txStatements _ _ _) as [[l|e]| |]; simpl; try (left; apply Hno).
  destruct (ExecuteTransaction _ _ _) as [[o|] [e|]]; simpl; left; apply Hno.
Qed.

Lemma rollback_inv (w : World) :
  coherent (conn (rollback w).1) ∧ wf_world (rollback w).1 ∨ (rollback w).1 = w.
Proof.
  unfold rollback. destruct (tx (conn w)); [|by right].
  destruct (bool_decide (txMode (conn w) = txCommitting)); [by right|].
  destruct (bool_decide (txMode (conn w) ≠ txStarted)
            && bool_decide (txMode (conn w) ≠ txRollingBack)); [by right|].
  left. split; [done|]. split; simpl; [apply NoDup_nil_2|apply Forall_nil_2].
Qed.

End ConnFacts.

(** ** The transaction of a connection: examples *)

Lemma commit_distributes_outputs_witness :
  ∃ w',
    commit client_commits codec_example (world_two_queued client_commits) = (w', Done None)
    ∧ output <$> heap w' !! 0
      = Some (Some {| ResultMetadata := 7;
                      OutputConsumedCapacity :=
                        Some {| CapacityTable := "t"; CapacityUnits := 2 |};
                      Items := [ {[ "id" := AttributeValueMemberS "a" ]} ];
                      NextToken := None |})
    ∧ output <$> heap w' !! 1
      = Some (Some {| ResultMetadata := 7;
                      OutputConsumedCapacity :=
                        Some {| CapacityTable := "u"; CapacityUnits := 4 |};
                      Items := [];
                      NextToken := None |}).
Proof.
  destruct (commit_distributes_outputs client_commits codec_example
              (world_two_queued client_commits)
              [ {| TxStatement := query stmt_update;
                   TxParameters := [AttributeValueMemberS "a"] |};
                {| TxStatement := query stmt_delete; TxParameters := [] |} ]
              batch_example)
    as (w' & Hc & _ & _ & Hi).
  - discriminate.
  - reflexivity.
  - discriminate.
  - vm_compute. repeat constructor; intros H; inversion H; subst;
      repeat match goal with H : _ ∈ _ |- _ => inversion H; clear H; subst end.
  - reflexivity.
  - reflexivity.
  - exists w'. split; [exact Hc|]. split.
    + destruct (Hi 0 0 eq_refl) as (t & out & Ht & _ & -> & Hm & Hcc & Hit & Hnt & _).
      destruct out; simpl in *. subst. reflexivity.
    + destruct (Hi 1 1 eq_refl) as (t & out & Ht & _ & -> & Hm & Hcc & Hit & Hnt & _).
      destruct out; simpl in *. subst. reflexivity.
Defined.

Lemma commit_always_resets_witness :
  conn (commit client_down codec_example (world_two_queued client_down)).1 = noTx
  ∧ (commit client_down codec_example (world_two_queued client_down)).2
    = Done (Some (TransportError "connection refused")).
Proof.
  split; [|reflexivity].
  apply (commit_always_resets client_down codec_example (world_two_queued client_down)).
  - discriminate.
  - reflexivity.
Defined.


(** ** The rows of a result: columns *)

Section RowsFacts.
Variable TypeOf : AttributeValue → option reflectType.

Lemma initCol_view (st : colState) (c : string) (av : AttributeValue) (col : string) :
  view (initCol TypeOf st (c, av)) col
  = if decide (col = c) then stepView TypeOf (view st col) (Some av) else view st col.
Proof.
  unfold initCol, view, stepView, columnType. simpl.
  destruct (decide (col = c)) as [->|Hne].
  - destruct (default None (colTypes st !! c)); simpl; [done|].
    by rewrite !lookup_insert_eq.
  - destruct (default None (colTypes st !! c)); simpl; [done|].
    by rewrite !lookup_insert_ne.
Qed.

Lemma initCol_colMap (st : colState) (e : string * AttributeValue) :
  colMap (initCol TypeOf st e) = {[ e.1 ]} ∪ colMap st.
Proof. unfold initCol. by destruct (columnType _ _). Qed.

Lemma initCol_fold (l : list (string * AttributeValue)) :
  NoDup l.*1 →
  ∀ (st : colState) (col : string),
    view (foldl (initCol TypeOf) st l) col
    = stepView TypeOf (view st col) ((list_to_map l : gmap string AttributeValue) !! col)
    ∧ colMap (foldl (initCol TypeOf) st l) = list_to_set l.*1 ∪ colMap st.
Proof.
  induction l as [|[c av] l IH]; intros Hnd st col; simpl.
  - split; [done|]. set_solver.
  - apply NoDup_cons in Hnd as [Hc Hnd].
    destruct (IH Hnd (initCol TypeOf st (c, av)) col) as [-> ->].
    rewrite initCol_view, initCol_colMap. simpl. split; [|set_solver].
    destruct (decide (col = c)) as [->|Hne].
    + rewrite lookup_insert_eq.
      rewrite (not_elem_of_list_to_map_1 (M := gmap string)) by done. done.
    + by rewrite lookup_insert_ne.
Qed.

Lemma initItem_view (st : colState) (item : gmap string AttributeValue) (col : string) :
  view (initItem TypeOf st item) col = stepView TypeOf (view st col) (item !! col)
  ∧ colMap (initItem TypeOf st item) = dom item ∪ colMap st.
Proof.
  unfold initItem.
  destruct (initCol_fold (map_to_list item) (NoDup_fst_map_to_list item) st col) as [-> ->].
  rewrite list_to_map_to_list. split; [done|].
  f_equal. apply set_eq. intros x.
  rewrite elem_of_list_to_set, elem_of_dom, list_elem_of_fmap.
  split.
  - intros [[k v] [-> H%elem_of_map_to_list]]. eauto.
  - intros [v H]. exists (x, v). split; [done|]. by apply elem_of_map_to_list.
Qed.

Lemma initItems_view (its : list (gmap string AttributeValue)) :
  ∀ (st : colState) (col : string),
    view (foldl (initItem TypeOf) st its) col
    = foldl (stepView TypeOf) (view st col) ((λ item, item !! col) <$> its)
    ∧ colMap (foldl (initItem TypeOf) st its) = ⋃ (dom <$> its) ∪ colMap st.
Proof.
  induction its as [|item its IH]; intros st col; simpl.
  - split; [done|]. set_solver.
  - destruct (IH (initItem TypeOf st item) col) as [-> ->].
    destruct (initItem_view st item col) as [-> ->]. split; [done|]. set_solver.
Qed.

Lemma stepView_determined (v : option (option reflectType) * option string)
    (l : list (option AttributeValue)) :
  default None v.1 ≠ None → foldl (stepView TypeOf) v l = v.
Proof.
  intros Hv. induction l as [|o l IH]; simpl; [done|].
  assert (stepView TypeOf v o = v) as ->; [|done].
  destruct o; simpl; [|done]. by destruct (default None v.1).
Qed.

Lemma stepView_chosen (l : list (option AttributeValue)) :
  ∀ v, default None v.1 = None →
    foldl (stepView TypeOf) v l
    = match chosen TypeOf (omap id l) with
      | Some av => (Some (TypeOf av), Some (nameFromAttributeValue av))
      | None => v
      end.
Proof.
  induction l as [|[av|] l IH]; intros v Hv; [done| |by apply IH].
  change (omap id (Some av :: l)) with (av :: omap id l).
  cbn [foldl].
  assert (stepView TypeOf v (Some av) = (Some (TypeOf av), Some (nameFromAttributeValue av))) as ->.
  { simpl. by rewrite Hv. }
  rewrite (surjective_pairing v) in Hv. 
  specialize (IH (Some (TypeOf av), Some (nameFromAttributeValue av))).
  set (avs := omap id l) in *. clearbody avs.
  unfold chosen in *. cbn [find]. unfold typed at 1.
  destruct (TypeOf av) as [ty|] eqn:Hty.
  - rewrite stepView_determined by done. by rewrite Hty.
  - rewrite IH by done.
    destruct (find (typed TypeOf) avs); [done|].
    destruct avs as [|x l']; [simpl; by rewrite Hty|].
    change (last (av :: x :: l')) with (last (x :: l')).
    destruct (last (x :: l')) eqn:El; [done|by apply last_None in El].
Qed.

Lemma omap_lookup (its : list (gmap string AttributeValue)) (col : string) :
  omap id ((λ item, item !! col) <$> its) = omap (λ item, item !! col) its.
Proof.
  induction its as [|item its IH]; [done|]. cbn [fmap list_fmap].
  change (omap id (item !! col :: ((λ item, item !! col) <$> its)))
    with (match item !! col with
          | Some av => av :: omap id ((λ item, item !! col) <$> its)
          | None => omap id ((λ item, item !! col) <$> its)
          end).
  rewrite IH. done.
Qed.

(** C7, as amended.  For a result set initialised from a first page of
    items, with no column type known before: when the statement named no
    output columns, the column list is the union of the attribute keys of
    the items of the page, sorted and without repetition; when it named
    some, the list is kept as given.  The inferred type and the native
    source-type tag of a column are those of its value in the first item in
    which the column has a value whose inferred type is not nil; when there
    is no such item they are those of the last item that contains the column
    (the inferred type being nil then). *)
Theorem init_columns (r : ResultResultSet) (s : statement) (out : ExecuteStatementOutput) :
  stmt r = Some s →
  stOutput s = Some out →
  columnTypes r = ∅ →
  columnSourceTypes r = ∅ →
  let r' := init TypeOf r in
  items r' = Items out
  ∧ (columnList r = [] →
     StronglySorted String.le (columnList r')
     ∧ NoDup (columnList r')
     ∧ ∀ col, col ∈ columnList r' ↔ ∃ item, item ∈ Items out ∧ is_Some (item !! col))
  ∧ (columnList r ≠ [] → columnList r' = columnList r)
  ∧ ∀ col,
      columnTypes r' !! col = TypeOf <$> chosen TypeOf (omap (λ item, item !! col) (Items out))
      ∧ columnSourceTypes r' !! col
        = nameFromAttributeValue <$> chosen TypeOf (omap (λ item, item !! col) (Items out)).
Proof.
  intros Hs Ho Ht Hst r'. unfold r', init. rewrite Hs, Ho, Ht, Hst. simpl.
  split; [done|]. split; [|split].
  - intros ->. simpl.
    split; [apply StronglySorted_merge_sort; apply _|].
    split.
    + rewrite merge_sort_Permutation. apply NoDup_elements.
    + intros col. rewrite merge_sort_Permutation, elem_of_elements.
      destruct (initItems_view (Items out)
                  {| colMap := ∅; colTypes := ∅; colSourceTypes := ∅ |} col) as [_ ->].
      simpl. rewrite elem_of_union, elem_of_union_list.
      split.
      * intros [(X & HX & Hcol)|Hcol]; [|set_solver].
        apply list_elem_of_fmap in HX as (item & -> & Hitem).
        exists item. split; [done|]. by apply elem_of_dom.
      * intros (item & Hitem & Hcol). left. exists (dom item). split.
        -- apply list_elem_of_fmap. eauto.
        -- by apply elem_of_dom.
  - intros Hne. destruct (columnList r); done.
  - intros col.
    destruct (initItems_view (Items out)
                {| colMap := ∅; colTypes := ∅; colSourceTypes := ∅ |} col) as [Hv _].
    unfold view in Hv. simpl in Hv. rewrite !lookup_empty in Hv.
    rewrite stepView_chosen, omap_lookup in Hv by done.
    destruct (chosen TypeOf _); injection Hv as -> ->; done.
Qed.
End RowsFacts.

(** ** The rows of a result: examples *)

(** C7, as stated, fails: the first item that contains the column a holds a
    NULL, whose inferred type is nil; [init] then takes the type and the
    source-type tag of a from the second item. *)
Lemma init_skips_null :
  Items page_example !! 0
  = Some {[ "a" := AttributeValueMemberNULL true; "b" := AttributeValueMemberN "1" ]}
  ∧ nameFromAttributeValue (AttributeValueMemberNULL true) = "NULL"
  ∧ sdkTypeOf (AttributeValueMemberNULL true) = None
  ∧ columnSourceTypes (init sdkTypeOf rows_example) !! "a" = Some "S"
  ∧ columnTypes (init sdkTypeOf rows_example) !! "a" = Some (Some TypeString)
  ∧ columnList (init sdkTypeOf rows_example) = ["a"; "b"].
Proof. vm_compute. auto 10. Qed.

Lemma init_columns_witness :
  columnSourceTypes (init sdkTypeOf rows_example) !! "b" = Some "N"
  ∧ columnTypes (init sdkTypeOf rows_example) !! "a" = Some (Some TypeString).
Proof.
  destruct (init_columns sdkTypeOf rows_example
              {| stClient := None; stLimit := 0; stInput := None;
                 stOutput := Some page_example |}
              page_example eq_refl eq_refl eq_refl eq_refl)
    as (_ & _ & _ & H).
  split.
  - destruct (H "b") as [_ ->]. vm_compute. reflexivity.
  - destruct (H "a") as [-> _]. vm_compute. reflexivity.
Defined.

(** ** The rows of a result: the end of the rows *)

Lemma wrap32_small (z : Z) : (- 2 ^ 31 ≤ z < 2 ^ 31)%Z → wrap32 z = z.
Proof. intros H. unfold wrap32. rewrite Z.mod_small; lia. Qed.

Lemma fetchNext_inv (r r1 : ResultResultSet) (log log1 : list call) (e : option error)
    (s : statement) :
  stmt r = Some s →
  fetchNext r log = Done (r1, log1, e) →
  read r1 = read r ∧ err r1 = err r
  ∧ (∃ s1, stmt r1 = Some s1 ∧ stLimit s1 = stLimit s)
  ∧ (e = Some EOF ∨ ∃ input, log1 = log ++ [CallExecuteStatement input]).
Proof.
  intros Hs. unfold fetchNext. rewrite Hs. simpl.
  destruct (stOutput s) as [out|]; simpl; [|done].
  destruct (NextToken out) as [tok|].
  - destruct (stInput s) as [input|]; simpl; [|done].
    destruct (stClient s) as [cl|]; simpl; [|done].
    intros [= <- <- <-]. simpl. split_and!; eauto.
  - intros [= <- <- <-]. split_and!; eauto.
Qed.

Lemma cursorInv_intro (L n : Z) (r : ResultResultSet) (s : statement) :
  stmt r = Some s → stLimit s = L → read r = n → (0 ≤ n ≤ L)%Z →
  (n = L → err r = None) → cursorInv L n r.
Proof. unfold cursorInv. eauto 10. Qed.

Lemma Next_inv (L : Z) (fuel : nat) :
  (0 < L < 2 ^ 31)%Z →
  ∀ (r r' : ResultResultSet) (log log' : list call) (nd : nat) (res : nextResult) (n : Z),
    cursorInv L n r →
    Next fuel r log nd = Done (r', log', res) →
    cursorInv L (n + (if isRow res then 1 else 0)) r'
    ∧ (isRow res = true → err r' = None).
Proof.
  intros HL. induction fuel as [|fuel IH]; intros r r' log log' nd res n Hinv H; [done|].
  destruct Hinv as ((s & Hs & Hlim) & Hread & Hn & Herr).
  simpl in H. destruct (err r) as [e|] eqn:He.
  - injection H as <- <- <-. cbn [isRow]. replace (n + 0)%Z with n by lia.
    split; [|done]. apply (cursorInv_intro _ _ _ s); try done.
    intros Hnl. by apply Herr in Hnl.
  - rewrite Hs in H. simpl in H.
    destruct ((0 <? stLimit s)%Z && (stLimit s <=? read r)%Z) eqn:Hc.
    + injection H as <- <- <-. cbn [isRow]. replace (n + 0)%Z with n by lia.
      split; [|done]. by apply (cursorInv_intro _ _ _ s).
    + assert (n < L)%Z as Hlt.
      { apply andb_false_iff in Hc as [Hc|Hc].
        - apply Z.ltb_ge in Hc. lia.
        - apply Z.leb_gt in Hc. lia. }
      destruct (items r) as [|rowData its] eqn:Hi.
      * destruct (fetchNext r log) as [[[r1 log1] e]| |] eqn:Hf; simpl in H; try done.
        destruct (fetchNext_inv _ _ _ _ _ _ Hs Hf) as (Hr1 & He1 & (s1 & Hs1 & Hl1) & _).
        assert (cursorInv L n (set_err r1 e)) as Hinv1.
        { apply (cursorInv_intro _ _ _ s1); simpl; try done; [congruence..|lia]. }
        destruct e as [e|].
        -- injection H as <- <- <-. cbn [isRow]. replace (n + 0)%Z with n by lia. done.
        -- by apply (IH _ _ _ _ _ _ _ Hinv1) in H.
      * destruct (Nat.ltb nd (length (columnList r))); [done|].
        injection H as <- <- <-. cbn [isRow]. split; [|done].
        apply (cursorInv_intro _ _ _ s); simpl; try done.
        -- rewrite wrap32_small; lia.
        -- lia.
Qed.

(** Once [Next] has signalled the end, it signals it again, and leaves the
    rows and the log as they are. *)
Lemma Next_EOF_again (fuel : nat) :
  ∀ (r r' : ResultResultSet) (log log' : list call) (nd : nat),
    Next fuel r log nd = Done (r', log', Failed EOF) →
    ∀ fuel' nd', Next (S fuel') r' log' nd' = Done (r', log', Failed EOF).
Proof.
  induction fuel as [|fuel IH]; intros r r' log log' nd H fuel' nd'; [done|].
  simpl in H. destruct (err r) as [e|] eqn:He.
  - injection H as <- <- ->. simpl. by rewrite He.
  - destruct (stmt r) as [s|] eqn:Hs; simpl in H; [|done].
    destruct ((0 <? stLimit s)%Z && (stLimit s <=? read r)%Z) eqn:Hc.
    + injection H as <- <-. simpl. rewrite He, Hs. simpl. by rewrite Hc.
    + destruct (items r) as [|rowData its].
      * destruct (fetchNext r log) as [[[r1 log1] e]| |] eqn:Hf; simpl in H; try done.
        destruct e as [e|].
        -- injection H as <- <- ->. done.
        -- by eapply IH.
      * destruct (Nat.ltb nd (length (columnList r))); done.
Qed.

Lemma rowsYielded_cons (res : nextResult) (rs : list nextResult) :
  rowsYielded (res :: rs) = (if isRow res then 1 else 0) + rowsYielded rs.
Proof.
  unfold rowsYielded. rewrite filter_cons.
  destruct (decide (isRow res = true)) as [->|Hn]; simpl; [done|].
  by destruct (isRow res).
Qed.

Lemma NextRun_inv (L : Z) (r0 r : ResultResultSet) (log0 log : list call)
    (rs : list nextResult) :
  (0 < L < 2 ^ 31)%Z →
  NextRun r0 log0 rs r log →
  ∀ n, cursorInv L n r0 → cursorInv L (n + Z.of_nat (rowsYielded rs)) r.
Proof.
  intros HL Hrun. induction Hrun as [r log|fuel nd r r1 r2 log log1 log2 res rs H Hrun IH];
    intros n Hinv.
  - replace (n + Z.of_nat (rowsYielded []))%Z with n; [done|].
    unfold rowsYielded. simpl. lia.
  - destruct (Next_inv L fuel HL _ _ _ _ _ _ _ Hinv H) as [Hinv1 _].
    apply IH in Hinv1.
    replace (n + Z.of_nat (rowsYielded (res :: rs)))%Z
      with (n + (if isRow res then 1 else 0) + Z.of_nat (rowsYielded rs))%Z; [done|].
    rewrite rowsYielded_cons. destruct (isRow res); lia.
Qed.

(** C6.  Take a cursor with a row limit L that is positive, fresh in that
    it has read no row.  After any run of calls of [Next] in which L rows
    were yielded, every further call of [Next] returns the end-of-rows
    signal EOF and leaves the cursor and the log of the calls to the service
    as they are: it fetches nothing.  And for every cursor, with or without
    limit: once a call of [Next] has returned EOF, every further call
    returns EOF and leaves the cursor and the log as they are. *)
Theorem Next_exhaustion :
  (∀ (r0 r : ResultResultSet) (log0 log : list call) (rs : list nextResult) (s0 : statement),
     stmt r0 = Some s0 → read r0 = 0%Z → (0 < stLimit s0 < 2 ^ 31)%Z →
     NextRun r0 log0 rs r log →
     Z.of_nat (rowsYielded rs) = stLimit s0 →
     ∀ fuel nd, Next (S fuel) r log nd = Done (r, log, Failed EOF))
  ∧ (∀ (fuel : nat) (r r' : ResultResultSet) (log log' : list call) (nd : nat),
       Next fuel r log nd = Done (r', log', Failed EOF) →
       ∀ fuel' nd', Next (S fuel') r' log' nd' = Done (r', log', Failed EOF)).
Proof.
  split; [|apply Next_EOF_again].
  intros r0 r log0 log rs s0 Hs0 Hread HL Hrun Hrows fuel nd.
  assert (cursorInv (stLimit s0) 0 r0) as Hinv.
  { apply (cursorInv_intro _ _ _ s0); try done; lia. }
  apply (NextRun_inv _ _ _ _ _ _ HL Hrun) in Hinv.
  destruct Hinv as ((s & Hs & Hlim) & Hr & _ & Herr).
  simpl. rewrite Herr by lia. rewrite Hs. simpl.
  replace ((0 <? stLimit s)%Z && (stLimit s <=? read r)%Z) with true; [done|].
  symmetry. apply andb_true_iff. split; [apply Z.ltb_lt|apply Z.leb_le]; lia.
Qed.

Lemma Next_exhaustion_witness :
  Next 3 (rows_limit_one 1 [item_b]) [] 1 = Done (rows_limit_one 1 [item_b], [], Failed EOF)
  ∧ Next 3 (rows_last_page (Some EOF)) [] 1 = Done (rows_last_page (Some EOF), [], Failed EOF).
Proof.
  destruct Next_exhaustion as [Hlimit Hagain]. split.
  - apply (Hlimit (rows_limit_one 0 [item_a; item_b]) _ [] _
             [Row [Some (AttributeValueMemberS "a")]] stmt_limit_one).
    + reflexivity.
    + reflexivity.
    + simpl. lia.
    + apply (NextRun_cons 1 1 _ (rows_limit_one 1 [item_b]) _ _ [] _ _ _);
        [vm_compute; reflexivity|apply NextRun_nil].
    + reflexivity.
  - apply (Hagain 1 (rows_last_page None) _ [] _ 1). vm_compute. reflexivity.
Defined.

(** ** The rows of a result: further properties *)

(** X1.  [Next] does not retry: once a call has returned an error, be it
    the end of the rows or a failure of the service during a fetch, every
    further call returns the same error and leaves the rows and the log of
    the calls to the service as they are. *)
Theorem Next_error_sticky (fuel : nat) :
  ∀ (r r' : ResultResultSet) (log log' : list call) (nd : nat) (e : error),
    Next fuel r log nd = Done (r', log', Failed e) →
    ∀ fuel' nd', Next (S fuel') r' log' nd' = Done (r', log', Failed e).
Proof.
  induction fuel as [|fuel IH]; intros r r' log log' nd e H fuel' nd'; [done|].
  simpl in H. destruct (err r) as [e0|] eqn:He.
  - injection H as <- <- ->. simpl. by rewrite He.
  - destruct (stmt r) as [s|] eqn:Hs; simpl in H; [|done].
    destruct ((0 <? stLimit s)%Z && (stLimit s <=? read r)%Z) eqn:Hc.
    + injection H as <- <- <-. simpl. rewrite He, Hs. simpl. by rewrite Hc.
    + destruct (items r) as [|rowData its].
      * destruct (fetchNext r log) as [[[r1 log1] e1]| |] eqn:Hf; simpl in H; try done.
        destruct e1 as [e1|].
        -- injection H as <- <- ->. done.
        -- by eapply IH.
      * destruct (Nat.ltb nd (length (columnList r))); done.
Qed.

Lemma Next_error_sticky_witness :
  ∃ r' log',
    Next 2 rows_fetch_fails [] 1 = Done (r', log', Failed (TransportError "connection refused"))
    ∧ Next 2 r' log' 1 = Done (r', log', Failed (TransportError "connection refused")).
Proof.
  eexists _, _. split; [vm_compute; reflexivity|].
  apply (Next_error_sticky 2 rows_fetch_fails _ [] _ 1). vm_compute. reflexivity.
Defined.

(** X2.  A cursor with a positive row limit never yields more rows than the
    limit: in every run of calls of [Next] from a fresh cursor the number of
    rows yielded is at most the limit, and the counter [read] holds it. *)
Theorem Next_within_limit (r0 r : ResultResultSet) (log0 log : list call)
    (rs : list nextResult) (s0 : statement) :
  stmt r0 = Some s0 → read r0 = 0%Z → (0 < stLimit s0 < 2 ^ 31)%Z →
  NextRun r0 log0 rs r log →
  (Z.of_nat (rowsYielded rs) ≤ stLimit s0)%Z ∧ read r = Z.of_nat (rowsYielded rs).
Proof.
  intros Hs0 Hread HL Hrun.
  assert (cursorInv (stLimit s0) 0 r0) as Hinv.
  { apply (cursorInv_intro _ _ _ s0); try done; lia. }
  apply (NextRun_inv _ _ _ _ _ _ HL Hrun) in Hinv.
  destruct Hinv as (_ & Hr & Hn & _). lia.
Qed.

Lemma Next_within_limit_witness :
  (Z.of_nat (rowsYielded [Row [Some (AttributeValueMemberS "a")]; Failed EOF]) ≤ 1)%Z.
Proof.
  apply (Next_within_limit (rows_limit_one 0 [item_a; item_b]) (rows_limit_one 1 [item_b])
           [] [] _ stmt_limit_one); [reflexivity|reflexivity|simpl; lia|].
  apply (NextRun_cons 1 1 _ (rows_limit_one 1 [item_b]) _ _ [] _ _ _);
    [vm_compute; reflexivity|].
  apply (NextRun_cons 1 1 _ (rows_limit_one 1 [item_b]) _ _ [] _ _ _);
    [vm_compute; reflexivity|apply NextRun_nil].
Defined.

(** X3.  The rows held in the buffer are delivered in their order and
    without a call to the service: when the limit leaves room for them, as
    many calls of [Next] as there are items in the buffer yield, one after
    the other, the row of each item (its attributes in the order of the
    column list), and leave the buffer empty, the counter advanced by their
    number and the log as it was. *)
Theorem Next_buffered_in_order (its : list (gmap string AttributeValue)) :
  ∀ (r : ResultResultSet) (s : statement) (log : list call) (nd : nat),
    err r = None → stmt r = Some s → items r = its →
    (stLimit s ≤ 0 ∨ read r + Z.of_nat (length its) ≤ stLimit s)%Z →
    (- 2 ^ 31 ≤ read r)%Z → (read r + Z.of_nat (length its) < 2 ^ 31)%Z →
    length (columnList r) ≤ nd →
    NextRun r log (rowOf (columnList r) <$> its) (advanced r (length its) []) log.
Proof.
  induction its as [|rowData its IH]; intros r s log nd He Hs Hi Hlim Hlo Hhi Hnd.
  - replace (advanced r (length []) []) with r; [apply NextRun_nil|].
    destruct r; unfold advanced; simpl in *. subst. f_equal. lia.
  - simpl in Hlim, Hhi.
    assert (Next 1 r log nd
            = Done (advanced r 1 its, log, rowOf (columnList r) rowData)) as Hstep.
    { simpl. rewrite He, Hs. simpl.
      assert ((0 <? stLimit s)%Z && (stLimit s <=? read r)%Z = false) as ->.
      { apply andb_false_iff. destruct Hlim as [Hl|Hl].
        - left. apply Z.ltb_ge. lia.
        - right. apply Z.leb_gt. lia. }
      rewrite Hi. rewrite (proj2 (Nat.ltb_ge _ _) Hnd).
      unfold advanced, rowOf. rewrite wrap32_small by lia. rewrite He, Hs. reflexivity. }
    eapply NextRun_cons; [exact Hstep|].
    replace (advanced r (length (rowData :: its)) []) with
      (advanced (advanced r 1 its) (length its) []).
    + apply (IH (advanced r 1 its) s log nd); simpl; try done; try lia.
    + unfold advanced. simpl. f_equal. lia.
Qed.

Lemma Next_buffered_in_order_witness :
  NextRun rows_buffered []
    [Row [Some (AttributeValueMemberS "a")]; Row [Some (AttributeValueMemberS "b")]]
    (advanced rows_buffered 2 []) [].
Proof.
  apply (Next_buffered_in_order [item_a; item_b] rows_buffered _ [] 1 eq_refl eq_refl eq_refl).
  - left. simpl. lia.
  - simpl. lia.
  - simpl. lia.
  - simpl. lia.
Defined.

Lemma Next_S (fuel : nat) (r : ResultResultSet) (log : list call) (nd : nat) :
  Next (S fuel) r log nd
  = match err r with
    | Some e => Done (r, log, Failed e)
    | None =>
      s ←← deref (stmt r) ;;
      if ((0 <? stLimit s)%Z && (stLimit s <=? read r)%Z)%bool then Done (r, log, Failed EOF)
      else
        match items r with
        | [] =>
          f ←← fetchNext r log ;;
          let r' := set_err f.1.1 f.2 in
          match f.2 with
          | Some e => Done (r', f.1.2, Failed e)
          | None => Next fuel r' f.1.2 nd
          end
        | rowData :: its =>
          let r' := {| err := err r; columnList := columnList r;
                       columnTypes := columnTypes r;
                       columnSourceTypes := columnSourceTypes r; stmt := stmt r;
                       read := wrap32 (read r + 1); items := its |} in
          if Nat.ltb nd (length (columnList r)) then Panicked
          else Done (r', log, Row ((λ col, rowData !! col) <$> columnList r))
        end
    end.
Proof. reflexivity. Qed.

(** X4.  Take a cursor with no error stored and its limit not reached,
    whose buffer is empty and whose last output has a continuation token,
    and a service that answers the fetch with a page that is not empty and
    no error.  Then [Next] makes exactly one call to the service, whose
    request is the last request with that token as its NextToken; it yields
    the first row of the new page, keeps the rest of the page in the buffer
    and stores the new request and output in the statement. *)
Theorem Next_fetch_follows_token (r : ResultResultSet) (s : statement)
    (out out' : ExecuteStatementOutput) (tok : string) (input : ExecuteStatementInput)
    (cl : Client) (rowData : gmap string AttributeValue)
    (rest' : list (gmap string AttributeValue)) (log : list call) (nd fuel : nat) :
  err r = None → stmt r = Some s → items r = [] →
  (stLimit s ≤ 0 ∨ read r < stLimit s)%Z →
  (- 2 ^ 31 ≤ read r < 2 ^ 31 - 1)%Z →
  stOutput s = Some out → NextToken out = Some tok →
  stInput s = Some input → stClient s = Some cl →
  ExecuteStatement cl log (withNextToken input tok) = (Some out', None) →
  Items out' = rowData :: rest' →
  length (columnList r) ≤ nd →
  ∃ r',
    Next (S (S fuel)) r log nd
    = Done (r', log ++ [CallExecuteStatement (withNextToken input tok)],
            rowOf (columnList r) rowData)
    ∧ items r' = rest' ∧ read r' = (read r + 1)%Z ∧ err r' = None
    ∧ stmt r' = Some {| stClient := Some cl; stLimit := stLimit s;
                        stInput := Some (withNextToken input tok);
                        stOutput := Some out' |}.
Proof.
  intros He Hs Hi Hlim Hread Ho Htok Hin Hcl Hex Hits Hnd.
  assert ((0 <? stLimit s)%Z && (stLimit s <=? read r)%Z = false) as Hc.
  { apply andb_false_iff. destruct Hlim as [Hl|Hl].
    - left. apply Z.ltb_ge. lia.
    - right. apply Z.leb_gt. lia. }
  assert (fetchNext r log
          = Done ({| err := err r; columnList := columnList r;
                     columnTypes := columnTypes r;
                     columnSourceTypes := columnSourceTypes r;
                     stmt := Some {| stClient := stClient s; stLimit := stLimit s;
                                     stInput := Some (withNextToken input tok);
                                     stOutput := Some out' |};
                     read := read r; items := Items out' |},
                  log ++ [CallExecuteStatement (withNextToken input tok)], None)) as Hf.
  { unfold fetchNext. rewrite Hs. simpl. rewrite Ho. simpl. rewrite Htok, Hin. simpl.
    rewrite Hcl. simpl. unfold withNextToken in Hex. rewrite Hex. reflexivity. }
  rewrite Next_S, He, Hs. simpl. rewrite Hc, Hi, Hf. simpl.
  rewrite Hc, Hits. rewrite (proj2 (Nat.ltb_ge _ _) Hnd).
  eexists. split; [reflexivity|]. simpl. rewrite wrap32_small by lia.
  rewrite Hcl. done.
Qed.

Lemma Next_fetch_follows_token_witness :
  ∃ r',
    Next 2 rows_page_used [] 1
    = Done (r', [CallExecuteStatement (withNextToken input_example "t1")],
            Row [Some (AttributeValueMemberS "b")])
    ∧ items r' = [].
Proof.
  assert (Hlim : (0 ≤ 0 ∨ 1 < 0)%Z) by (left; lia).
  assert (Hread : (- 2 ^ 31 ≤ 1 < 2 ^ 31 - 1)%Z) by lia.
  assert (Hnd : 1 ≤ 1) by lia.
  destruct (Next_fetch_follows_token rows_page_used _
              {| ResultMetadata := 1; OutputConsumedCapacity := None;
                 Items := [item_a]; NextToken := Some "t1" |}
              {| ResultMetadata := 2; OutputConsumedCapacity := None;
                 Items := [item_b]; NextToken := None |}
              "t1" input_example client_one_more item_b [] [] 1 0
              eq_refl eq_refl eq_refl Hlim Hread eq_refl eq_refl eq_refl eq_refl
              eq_refl eq_refl Hnd) as (r' & H & Hi & _).
  exists r'. split; [exact H|exact Hi].
Defined.

Lemma chosen_elem_of (TypeOf : AttributeValue → option reflectType)
    (avs : list AttributeValue) (av : AttributeValue) :
  chosen TypeOf avs = Some av → av ∈ avs.
Proof.
  unfold chosen. destruct (find (typed TypeOf) avs) as [x|] eqn:E.
  - intros [= <-]. apply find_some in E as [E _]. by apply list_elem_of_In.
  - apply last_Some_elem_of.
Qed.

Lemma chosen_None (TypeOf : AttributeValue → option reflectType)
    (avs : list AttributeValue) :
  chosen TypeOf avs = None → avs = [].
Proof.
  unfold chosen. destruct (find (typed TypeOf) avs); [done|]. apply last_None.
Qed.

(** The types [init] stores for a column, when none was known before. *)
Lemma init_types (TypeOf : AttributeValue → option reflectType) (r : ResultResultSet)
    (s : statement) (out : ExecuteStatementOutput) (col : string) :
  stmt r = Some s → stOutput s = Some out →
  columnTypes r = ∅ → columnSourceTypes r = ∅ →
  columnTypes (init TypeOf r) !! col
  = TypeOf <$> chosen TypeOf (omap (λ item, item !! col) (Items out))
  ∧ columnSourceTypes (init TypeOf r) !! col
    = nameFromAttributeValue <$> chosen TypeOf (omap (λ item, item !! col) (Items out)).
Proof.
  intros Hs Ho Ht Hst. unfold init. rewrite Hs, Ho, Ht, Hst. simpl.
  destruct (initItems_view TypeOf (Items out)
              {| colMap := ∅; colTypes := ∅; colSourceTypes := ∅ |} col) as [Hv _].
  unfold view in Hv. simpl in Hv. rewrite !lookup_empty in Hv.
  rewrite stepView_chosen, omap_lookup in Hv by done.
  destruct (chosen _ _); injection Hv as -> ->; done.
Qed.

(** X5.  After [init] on a result set with no column type known before, the
    type and the database type name of a column come from the page: for a
    column that some item of the page contains they are the inferred type
    and the tag of the value of the column in one item of the page, and for
    a column that no item contains (a column named by the statement) they
    are the nil type and the empty name.  Every column that [init] itself
    discovers is contained in an item. *)
Theorem init_column_types_from_page (TypeOf : AttributeValue → option reflectType)
    (r : ResultResultSet) (s : statement) (out : ExecuteStatementOutput)
    (i : nat) (col : string) :
  stmt r = Some s → stOutput s = Some out →
  columnTypes r = ∅ → columnSourceTypes r = ∅ →
  Columns (init TypeOf r) !! i = Some col →
  (columnList r = [] → ∃ item, item ∈ Items out ∧ is_Some (item !! col))
  ∧ ((∃ item, item ∈ Items out ∧ is_Some (item !! col)) →
     ∃ item av,
       item ∈ Items out ∧ item !! col = Some av
       ∧ ColumnTypeDatabaseTypeName (init TypeOf r) i = Done (nameFromAttributeValue av)
       ∧ ColumnTypeScanType (init TypeOf r) i = Done (TypeOf av))
  ∧ ((∀ item, item ∈ Items out → item !! col = None) →
     ColumnTypeDatabaseTypeName (init TypeOf r) i = Done ""
     ∧ ColumnTypeScanType (init TypeOf r) i = Done None).
Proof.
  intros Hs Ho Ht Hst Hi.
  destruct (init_types TypeOf r s out col Hs Ho Ht Hst) as [Hty Hsrc].
  unfold ColumnTypeDatabaseTypeName, ColumnTypeScanType, index, columnType.
  unfold Columns in Hi. rewrite Hi. cbn [deref run_bind]. rewrite Hty, Hsrc.
  split; [|split].
  - intros Hnil. apply list_elem_of_lookup_2 in Hi. revert Hi.
    unfold init. rewrite Hs, Ho, Hnil. cbn [columnList length Nat.ltb Nat.leb].
    rewrite merge_sort_Permutation, elem_of_elements.
    destruct (initItems_view TypeOf (Items out)
                {| colMap := ∅; colTypes := columnTypes r;
                   colSourceTypes := columnSourceTypes r |} col) as [_ ->].
    cbn [colMap]. rewrite elem_of_union, elem_of_union_list.
    intros [(X & HX & Hcol)|Hcol]; [|by apply elem_of_empty in Hcol].
    apply list_elem_of_fmap in HX as (item & -> & Hitem).
    exists item. split; [done|]. by apply elem_of_dom.
  - intros (item & Hitem & [av Hav]).
    destruct (chosen TypeOf (omap (λ item, item !! col) (Items out))) as [av'|] eqn:Hch.
    + pose proof (chosen_elem_of _ _ _ Hch) as Hin.
      apply list_elem_of_omap in Hin as (item' & Hitem' & Hav').
      exists item', av'. done.
    + apply chosen_None in Hch.
      assert (av ∈ omap (λ item, item !! col) (Items out)) as Hin.
      { apply list_elem_of_omap. eauto. }
      rewrite Hch in Hin. by apply elem_of_nil in Hin.
  - intros Hnone.
    assert (omap (λ item, item !! col) (Items out) = []) as ->; [|done].
    destruct (omap (λ item, item !! col) (Items out)) as [|av l] eqn:E; [done|].
    assert (av ∈ omap (λ item, item !! col) (Items out)) as Hin by (rewrite E; left).
    apply list_elem_of_omap in Hin as (item & Hitem & Hav).
    by rewrite (Hnone item Hitem) in Hav.
Qed.

Lemma init_column_types_from_page_witness :
  ColumnTypeDatabaseTypeName (init sdkTypeOf rows_example) 1 = Done "N"
  ∧ ColumnTypeScanType (init sdkTypeOf rows_example) 1 = Done (Some TypeFloat64).
Proof.
  destruct (init_column_types_from_page sdkTypeOf rows_example
              {| stClient := None; stLimit := 0; stInput := None;
                 stOutput := Some page_example |}
              page_example 1 "b" eq_refl eq_refl eq_refl eq_refl eq_refl)
    as (Hin & Hsome & _).
  destruct (Hsome (Hin eq_refl)) as (item & av & Hitem & Hav & -> & ->).
  assert (av = AttributeValueMemberN "1") as ->; [|split; reflexivity].
  apply list_elem_of_In in Hitem. simpl in Hitem.
  destruct Hitem as [<-|[<-|[]]]; vm_compute in Hav; congruence.
Defined.

(** X6.  LIST TABLES makes one call to the service and no more: when
    the call returns the names [ts] without error, [Query] returns rows from
    which [Next] delivers the names in the order of the response, the
    [k]-th call the [k]-th name, and after the last name returns EOF again
    and again; nothing follows a continuation of the listing. *)
Theorem ListTables_rows_in_order (client : TableClient) (log : list tableCall)
    (ts : list string) :
  ListTables client log = (Some {| TableNames := ts |}, None) →
  QueryListTables client log = (Done (Some (listed ts 0), None), log ++ [CallListTables])
  ∧ (∀ k name nd, ts !! k = Some name → 0 < nd →
       NextListTables (listed ts k) nd = Done (listed ts (S k), None, Some name))
  ∧ (∀ k nd, length ts ≤ k →
       NextListTables (listed ts k) nd = Done (listed ts k, Some EOF, None)).
Proof.
  intros H. split; [|split].
  - unfold QueryListTables. rewrite H. reflexivity.
  - intros k name nd Hk Hnd. unfold NextListTables, listed, index. simpl.
    apply lookup_lt_Some in Hk as Hlt.
    rewrite (proj2 (Nat.leb_gt _ _) Hlt), Hk. simpl.
    destruct nd; [lia|]. simpl. by rewrite Nat.add_1_r.
  - intros k nd Hk. unfold NextListTables, listed. simpl.
    by rewrite (proj2 (Nat.leb_le _ _) Hk).
Qed.

Lemma ListTables_rows_in_order_witness :
  NextListTables (listed ["orders"; "users"] 1) 1
  = Done (listed ["orders"; "users"] 2, None, Some "users")
  ∧ NextListTables (listed ["orders"; "users"] 2) 1
    = Done (listed ["orders"; "users"] 2, Some EOF, None).
Proof.
  destruct (ListTables_rows_in_order client_two_tables [] ["orders"; "users"] eq_refl)
    as (_ & Hrow & Heof).
  split.
  - apply Hrow; [reflexivity|lia].
  - apply Heof. simpl. lia.
Defined.

(** X7.  DROP TABLE mirrors CREATE TABLE: when the remote call fails the
    result has its success flag false and [RowsAffected] reports 0; the
    error is swallowed when the statement has the IF EXISTS modifier and the
    failure is ResourceNotFoundException, and returned as it is in every
    other case; the call is made once. *)
Theorem ExecDropTable_swallows_only_not_found (client : TableClient) (s : StmtDropTable)
    (log : list tableCall) (e : error) :
  DeleteTable client log (dropTableName s) = Some e →
  ∃ err,
    ExecDropTable client s log
    = ({| DropSuccessful := false |}, err, log ++ [CallDeleteTable (dropTableName s)])
    ∧ RowsAffectedDropTable {| DropSuccessful := false |} = (0%Z, None)
    ∧ (ifExists s = true → (∃ msg, e = ApiError "ResourceNotFoundException" msg) →
       err = None)
    ∧ (ifExists s = false ∨ (∀ msg, e ≠ ApiError "ResourceNotFoundException" msg) →
       err = Some e).
Proof.
  intros He. unfold ExecDropTable. rewrite He. eexists. split; [reflexivity|].
  split; [done|]. split.
  - intros -> [msg ->]. done.
  - intros [-> | Hne]; [done|].
    destruct (ifExists s); [|done]. simpl.
    destruct e; try done. case_bool_decide; [|done]. subst. by destruct (Hne msg).
Qed.

Lemma ExecDropTable_swallows_only_not_found_witness :
  (ExecDropTable client_two_tables (parseQuery_DropTable "DROP TABLE IF EXISTS t" " IF EXISTS" "t").1 []).1.2
  = None.
Proof.
  destruct (ExecDropTable_swallows_only_not_found client_two_tables
              (parseQuery_DropTable "DROP TABLE IF EXISTS t" " IF EXISTS" "t").1 []
              (ApiError "ResourceNotFoundException" "no such table") eq_refl)
    as (err & -> & _ & Hmask & _).
  simpl. apply Hmask; [reflexivity|]. eexists. reflexivity.
Defined.

Section ConnRuns.

Variable client : Client.
Variable ToAttributeValue : Value → AttributeValue * option error.
Variable ToBool : string → bool.

(** X8.  In every world a connection reaches, the connection has a
    transaction exactly when its mode is not none; the mode is none or
    started, so that the errors for a commit or a rollback under way and for
    an invalid stage never arise; the pointers of the queue are distinct and
    point into the heap, and the statements they point to have no output
    yet. *)
Theorem reachable_invariant (w : World) :
  reachable client ToAttributeValue ToBool w →
  coherent (conn w) ∧ wf_world w
  ∧ (txMode (conn w) = txNone ∨ txMode (conn w) = txStarted)
  ∧ queue_pending w.
Proof.
  assert (Hno : ∀ h l, (txMode (conn {| conn := noTx; heap := h; calls := l |}) = txNone
                        ∨ txMode (conn {| conn := noTx; heap := h; calls := l |}) = txStarted)
                       ∧ queue_pending {| conn := noTx; heap := h; calls := l |}).
  { intros h l. split; [by left|]. apply Forall_nil_2. }
  induction 1 as [|w Hr IH|w s vs Hr IH|w Hr IH|w Hr IH].
  - split_and!; try done; [split; [apply NoDup_nil_2|apply Forall_nil_2]|by left|].
    apply Forall_nil_2.
  - destruct IH as (Hc & Hwf & Hm & Hq).
    destruct (BeginTx_inv w Hc Hwf) as [Hc' Hwf']. split; [done|]. split; [done|].
    unfold BeginTx. destruct (tx (conn w)); [done|]. simpl.
    split; [by right|]. apply Forall_nil_2.
  - destruct IH as (Hc & Hwf & Hm & Hq).
    destruct (executeContext_inv client ToAttributeValue ToBool w s vs Hc Hwf) as [Hc' Hwf'].
    split; [done|]. split; [done|]. clear Hc' Hwf'.
    unfold executeContext. case_bool_decide as Hs; simpl.
    + split; [by right|]. unfold queue_pending. simpl. apply Forall_app. split.
      * eapply Forall_impl; [exact Hq|]. intros p (t & Hp & Ho). exists t.
        split; [|done]. by apply lookup_app_l_Some.
      * apply Forall_singleton. eexists.
        split; [rewrite lookup_app_r by lia; rewrite Nat.sub_diag; reflexivity|reflexivity].
    + case_bool_decide; simpl; [done|].
      destruct (marshal _ _ _ _); simpl; done.
  - destruct IH as (Hc & Hwf & Hm & Hq).
    destruct (commit_inv client ToAttributeValue w) as [[Hc' Hwf']|Heq].
    + split; [done|]. split; [done|]. clear Hc' Hwf'. unfold commit.
      destruct (tx (conn w)); [|done].
      destruct (bool_decide (txMode (conn w) = txRollingBack)); [done|].
      destruct (bool_decide (txMode (conn w) ≠ txStarted)
                && bool_decide (txMode (conn w) ≠ txCommitting)); [done|].
      destruct (bool_decide (length (txStmtList (conn w)) = 0)); [apply Hno|].
      destruct (txStatements _ _ _) as [[l|e]| |]; simpl; try apply Hno.
      destruct (ExecuteTransaction _ _ _) as [[o|] [e|]]; simpl; apply Hno.
    + rewrite Heq. done.
  - destruct IH as (Hc & Hwf & Hm & Hq).
    destruct (rollback_inv w) as [[Hc' Hwf']|Heq].
    + split; [done|]. split; [done|]. clear Hc' Hwf'. unfold rollback.
      destruct (tx (conn w)); [|done].
      destruct (bool_decide (txMode (conn w) = txCommitting)); [done|].
      destruct (bool_decide (txMode (conn w) ≠ txStarted)
                && bool_decide (txMode (conn w) ≠ txRollingBack)); [done|].
      apply Hno.
    + rewrite Heq. done.
Qed.

End ConnRuns.

Lemma reachable_invariant_witness :
  txMode (conn (world_two_queued client_commits)) = txNone
  ∨ txMode (conn (world_two_queued client_commits)) = txStarted.
Proof.
  apply (reachable_invariant client_commits codec_example ToBool_example).
  unfold world_two_queued. repeat constructor.
Defined.

Section ConnRuns2.

Variable client : Client.
Variable ToAttributeValue : Value → AttributeValue * option error.
Variable ToBool : string → bool.

(** The codec accepts every value of a list. *)
Lemma marshal_inl (wrap : nat → error → error) (vs : list Value) :
  ∀ (j : nat) (params : list AttributeValue),
    marshal ToAttributeValue wrap vs j = inl params →
    params = (λ v, (ToAttributeValue v).1) <$> vs
    ∧ Forall (λ v, (ToAttributeValue v).2 = None) vs.
Proof.
  induction vs as [|v vs IH]; intros j params H; simpl in H.
  - injection H as <-. split; [done|apply Forall_nil_2].
  - destruct (ToAttributeValue v) as [a [e|]] eqn:Hv; [done|].
    destruct (marshal ToAttributeValue wrap vs (S j)) as [ps|e] eqn:Hm; [|done].
    injection H as <-. destruct (IH _ _ Hm) as [-> Hall].
    split; [simpl; by rewrite Hv|]. apply Forall_cons. split; [by rewrite Hv|done].
Qed.

(** The codec rejects a value: the error is that of the first value it
    rejects, wrapped with the place of the value. *)
Lemma marshal_inr (wrap : nat → error → error) (vs : list Value) :
  ∀ (j : nat) (e : error),
    marshal ToAttributeValue wrap vs j = inr e →
    ∃ i v e0,
      vs !! i = Some v ∧ (ToAttributeValue v).2 = Some e0 ∧ e = wrap (j + i) e0
      ∧ Forall (λ v, (ToAttributeValue v).2 = None) (take i vs).
Proof.
  induction vs as [|v vs IH]; intros j e H; simpl in H; [done|].
  destruct (ToAttributeValue v) as [a [e0|]] eqn:Hv.
  - injection H as <-. exists 0, v, e0. rewrite Hv, Nat.add_0_r.
    split_and!; first [done | apply Forall_nil_2].
  - destruct (marshal ToAttributeValue wrap vs (S j)) as [ps|e1] eqn:Hm; [done|].
    injection H as <-. destruct (IH _ _ Hm) as (i & v' & e0 & Hi & He0 & -> & Hall).
    exists (S i), v', e0. split_and!; try done.
    + f_equal. lia.
    + simpl. apply Forall_cons. split; [by rewrite Hv|done].
Qed.

Lemma txStatements_inr (h : list txStmt) (ptrs : list nat) (e : error) :
  txStatements ToAttributeValue h ptrs = Done (inr e) →
  ∃ k p t i v e0,
    ptrs !! k = Some p ∧ h !! p = Some t ∧ values t !! i = Some v
    ∧ (ToAttributeValue v).2 = Some e0
    ∧ e = commitError (query (txstmt t)) i e0.
Proof.
  induction ptrs as [|p ptrs IH]; intros H; simpl in H; [done|].
  destruct (h !! p) as [t|] eqn:Hp; simpl in H; [|done].
  destruct (marshal _ _ _ _) as [params|e1] eqn:Hm.
  - destruct (txStatements ToAttributeValue h ptrs) as [[l|e1]| |] eqn:Hl; simpl in H; try done.
    injection H as <-. destruct (IH eq_refl) as (k & p' & t' & i & v & e0 & Hk & ?).
    exists (S k), p', t', i, v, e0. done.
  - injection H as <-.
    apply marshal_inr in Hm as (i & v & e0 & Hi & He0 & -> & _).
    exists 0, p, t, i, v, e0. done.
Qed.

(** X9.  A commit whose parameters the codec rejects makes no call to the
    service and writes no output: it returns the error of the codec for the
    first value rejected, wrapped in a message that names the place of the
    value, counted from one, and the text of its statement; the transaction
    is over all the same. *)
Theorem commit_codec_failure (w : World) (e : error) :
  tx (conn w) ≠ None →
  txMode (conn w) = txStarted →
  txStatements ToAttributeValue (heap w) (txStmtList (conn w)) = Done (inr e) →
  commit client ToAttributeValue w
  = ({| conn := noTx; heap := heap w; calls := calls w |}, Done (Some e))
  ∧ ∃ k p t i v e0,
      txStmtList (conn w) !! k = Some p ∧ heap w !! p = Some t
      ∧ values t !! i = Some v ∧ (ToAttributeValue v).2 = Some e0
      ∧ e = Errorf ("error marshalling parameter " +:+ pretty (i + 1)
                    +:+ "-th for statement <" +:+ query (txstmt t) +:+ ">: " +:+ Error e0).
Proof.
  intros Htx Hmode Hst. split; [|by apply txStatements_inr].
  unfold commit. destruct (tx (conn w)); [|done]. rewrite Hmode. simpl.
  destruct (txStmtList (conn w)) as [|p ptrs] eqn:Hq; [done|].
  rewrite bool_decide_eq_false_2 by done. by rewrite Hst.
Qed.

(** X10.  A commit that the service refuses is all or nothing for the
    statements queued: the one call to the service is made, its error is
    returned as it is, no queued statement gets an output, and the
    transaction is over. *)
Theorem commit_remote_failure (w : World) (stmts : list ParameterizedStatement)
    (out : option ExecuteTransactionOutput) (e : error) :
  tx (conn w) ≠ None →
  txMode (conn w) = txStarted →
  txStmtList (conn w) ≠ [] →
  txStatements ToAttributeValue (heap w) (txStmtList (conn w)) = Done (inl stmts) →
  ExecuteTransaction client (calls w) {| TransactStatements := stmts |} = (out, Some e) →
  commit client ToAttributeValue w
  = ({| conn := noTx; heap := heap w;
        calls := calls w ++ [CallExecuteTransaction {| TransactStatements := stmts |}] |},
     Done (Some e))
  ∧ ∀ p t, heap w !! p = Some t →
      callWrapper (commit client ToAttributeValue w).1 (WrapQueued p)
      = Done {| stClient := None; stLimit := 0; stInput := None; stOutput := output t |}.
Proof.
  intros Htx Hmode Hne Hst Hex.
  assert (commit client ToAttributeValue w
          = ({| conn := noTx; heap := heap w;
                calls := calls w
                         ++ [CallExecuteTransaction {| TransactStatements := stmts |}] |},
             Done (Some e))) as Hc.
  { unfold commit. destruct (tx (conn w)); [|done]. rewrite Hmode. simpl.
    rewrite bool_decide_eq_false_2 by (by destruct (txStmtList (conn w))).
    by rewrite Hst, Hex. }
  split; [done|]. intros p t Hp. rewrite Hc. unfold callWrapper. simpl. by rewrite Hp.
Qed.

End ConnRuns2.

Lemma commit_codec_failure_witness :
  commit client_commits codec_rejects (world_two_queued client_commits)
  = ({| conn := noTx; heap := heap (world_two_queued client_commits); calls := [] |},
     Done (Some (Errorf ("error marshalling parameter 1-th for statement "
                         +:+ "<UPDATE t SET a=1 WHERE id=? RETURNING ALL OLD *>: "
                         +:+ "unsupported value")))).
Proof.
  apply (commit_codec_failure client_commits codec_rejects (world_two_queued client_commits));
    [discriminate|reflexivity|vm_compute; reflexivity].
Defined.

Lemma commit_remote_failure_witness :
  (commit client_down codec_example (world_two_queued client_down)).2
  = Done (Some (TransportError "connection refused"))
  ∧ heap (commit client_down codec_example (world_two_queued client_down)).1
    = heap (world_two_queued client_down).
Proof.
  destruct (commit_remote_failure client_down codec_example (world_two_queued client_down)
              [ {| TxStatement := query stmt_update;
                   TxParameters := [AttributeValueMemberS "a"] |};
                {| TxStatement := query stmt_delete; TxParameters := [] |} ]
              None (TransportError "connection refused"))
    as [-> _]; try reflexivity; try discriminate.
  split; reflexivity.
Defined.

Section ConnRuns3.

Variable client : Client.
Variable ToAttributeValue : Value → AttributeValue * option error.
Variable ToBool : string → bool.

Lemma marshal_accepts (wrap : nat → error → error) (vs : list Value) :
  ∀ (j : nat),
    Forall (λ v, (ToAttributeValue v).2 = None) vs →
    marshal ToAttributeValue wrap vs j = inl ((λ v, (ToAttributeValue v).1) <$> vs).
Proof.
  induction vs as [|v vs IH]; intros j H; simpl; [done|].
  apply Forall_cons in H as [Hv H]. rewrite (IH (S j) H).
  destruct (ToAttributeValue v) as [a o]. simpl in Hv. by rewrite Hv.
Qed.

Lemma marshal_rejects (wrap : nat → error → error) (vs : list Value) :
  ∀ (j i : nat) (v : Value) (e0 : error),
    Forall (λ v, (ToAttributeValue v).2 = None) (take i vs) →
    vs !! i = Some v → (ToAttributeValue v).2 = Some e0 →
    marshal ToAttributeValue wrap vs j = inr (wrap (j + i) e0).
Proof.
  induction vs as [|v' vs IH]; intros j i v e0 Hall Hi He0; [done|].
  destruct i as [|i]; simpl in *.
  - simplify_eq. destruct (ToAttributeValue v) as [a o]. simpl in He0.
    by rewrite He0, Nat.add_0_r.
  - apply Forall_cons in Hall as [Hv' Hall].
    rewrite (IH (S j) i v e0 Hall Hi He0).
    destruct (ToAttributeValue v') as [a o]. simpl in Hv'. rewrite Hv'.
    f_equal. f_equal. lia.
Qed.

Lemma executeContext_started (w : World) (s : Stmt) (vs : list Value) :
  txMode (conn w) = txStarted →
  executeContext client ToAttributeValue ToBool w s vs
  = ({| conn := {| tx := tx (conn w); txMode := txStarted;
                   txStmtList := txStmtList (conn w) ++ [length (heap w)] |};
        heap := heap w ++ [queued (s, vs)]; calls := calls w |},
     (Some (WrapQueued (length (heap w))), Some ErrInTx)).
Proof.
  intros Hm. unfold executeContext. rewrite bool_decide_eq_true_2 by done. by rewrite Hm.
Qed.

Lemma executeAll_started (l : list (Stmt * list Value)) :
  ∀ (w : World),
    txMode (conn w) = txStarted →
    executeAll client ToAttributeValue ToBool w l
    = ({| conn := {| tx := tx (conn w); txMode := txStarted;
                     txStmtList := txStmtList (conn w) ++ seq (length (heap w)) (length l) |};
          heap := heap w ++ (queued <$> l); calls := calls w |},
       (λ p, (Some (WrapQueued p), Some ErrInTx)) <$> seq (length (heap w)) (length l)).
Proof.
  induction l as [|x l IH]; intros w Hm.
  - destruct w as [[t m q] h cs]. simpl in *. subst m. by rewrite !app_nil_r.
  - cbn [executeAll]. destruct x as [s vs]. cbn [fst snd].
    rewrite (executeContext_started w s vs Hm). cbn [fst snd].
    rewrite IH by done. cbn [fst snd conn heap calls tx txStmtList length fmap list_fmap seq].
    rewrite length_app, Nat.add_1_r. cbn [length].
    by rewrite <- !(assoc_L (++)).
Qed.

Lemma txStatements_accepts (h : list txStmt) (ptrs : list nat) :
  ∀ (l : list (Stmt * list Value)),
    Forall2 (λ p x, h !! p = Some (queued x)) ptrs l →
    Forall (λ x, Forall (λ v, (ToAttributeValue v).2 = None) x.2) l →
    txStatements ToAttributeValue h ptrs = Done (inl (txRequest ToAttributeValue l)).
Proof.
  induction ptrs as [|p ptrs IH]; intros l H2 Hall.
  - apply Forall2_nil_inv_l in H2 as ->. done.
  - apply Forall2_cons_inv_l in H2 as (x & l' & Hp & H2 & ->).
    apply Forall_cons in Hall as [Hx Hall]. simpl. rewrite Hp. simpl.
    rewrite marshal_accepts by done. by rewrite (IH l' H2 Hall).
Qed.

Lemma queued_pointers (h : list txStmt) (l : list (Stmt * list Value)) :
  Forall2 (λ p x, (h ++ (queued <$> l)) !! p = Some (queued x)) (seq (length h) (length l)) l.
Proof.
  apply Forall2_same_length_lookup_2; [by rewrite length_seq|].
  intros i p x Hp Hx. apply lookup_seq in Hp as [-> Hi].
  rewrite lookup_app_r by lia. replace (length h + i - length h) with i by lia.
  by rewrite list_lookup_fmap, Hx.
Qed.

(** X11.  A transaction from its beginning to its commit.  On a connection
    with no transaction, begin one, pass the statements of a list that is
    not empty to [executeContext] in turn, and commit.  Every call of
    [executeContext] returns the error for a transaction under way and a
    function that yields no output before the commit.  When the codec
    accepts every value and the service executes the batch, the commit
    returns nil after exactly one call, whose statements are the texts and
    the encoded values of the list in its order, and the function returned
    for the [i]-th statement now yields the [i]-th output of the batch. *)
Theorem transaction_round_trip (w : World) (l : list (Stmt * list Value))
    (o : ExecuteTransactionOutput) :
  tx (conn w) = None →
  l ≠ [] →
  Forall (λ x, Forall (λ v, (ToAttributeValue v).2 = None) x.2) l →
  ExecuteTransaction client (calls w)
    {| TransactStatements := txRequest ToAttributeValue l |} = (Some o, None) →
  let r := executeAll client ToAttributeValue ToBool (BeginTx w).1 l in
  let c := commit client ToAttributeValue r.1 in
  c.2 = Done None
  ∧ conn c.1 = noTx
  ∧ calls c.1
    = calls w ++ [CallExecuteTransaction
                    {| TransactStatements := txRequest ToAttributeValue l |}]
  ∧ length r.2 = length l
  ∧ ∀ i res, r.2 !! i = Some res →
      res.2 = Some ErrInTx
      ∧ ∃ f, res.1 = Some f
          ∧ callWrapper r.1 f
            = Done {| stClient := None; stLimit := 0; stInput := None; stOutput := None |}
          ∧ callWrapper c.1 f
            = Done {| stClient := None; stLimit := 0; stInput := None;
                      stOutput := Some (txOutputAt o i) |}.
Proof.
  intros Htx Hne Hall Hex r c. subst c r.
  unfold BeginTx. rewrite Htx. simpl.
  rewrite executeAll_started by done. simpl.
  pose proof (queued_pointers (heap w) l) as Hq.
  unfold commit. simpl.
  rewrite bool_decide_eq_false_2
    by (rewrite length_seq; destruct l; [done|simpl; lia]).
  rewrite (txStatements_accepts _ _ l Hq Hall). simpl. rewrite Hex. simpl.
  split; [done|]. split; [done|]. split; [done|].
  split; [by rewrite length_fmap, length_seq|].
  intros i res Hres. rewrite list_lookup_fmap in Hres.
  destruct (seq (length (heap w)) (length l) !! i) as [p|] eqn:Hp; [|done].
  simpl in Hres. injection Hres as <-. simpl. split; [done|].
  exists (WrapQueued p). split; [done|].
  pose proof Hp as Hp'. apply lookup_seq in Hp' as [-> Hi].
  destruct (lookup_lt_is_Some_2 l i Hi) as [x Hx].
  assert ((heap w ++ (queued <$> l)) !! (length (heap w) + i) = Some (queued x)) as Hh.
  { eapply (Forall2_lookup_lr _ _ _ i) in Hq; [exact Hq| |exact Hx].
    apply lookup_seq. done. }
  unfold callWrapper. simpl. split; [by rewrite Hh|].
  rewrite (distribute_lookup o _ 0 _ i) by (apply NoDup_seq || done).
  by rewrite Hh.
Qed.

(** X12.  Outside a transaction [executeContext] leaves the connection and
    the queued statements as they are.  When the codec accepts every value
    it makes one call to the service, for the text of the statement with the
    encoded values in their order and the limit of the statement, with
    the consistent read of the option CONSISTENT_READ or else of the option
    CONSISTENTREAD, and returns what the service returned, output and error, with a limit of 0
    for a statement that has none.  When the codec rejects a value it makes
    no call and returns no function: the error is that of the first value
    rejected, with its place counted from one. *)
Theorem executeContext_outside_tx (w : World) (s : Stmt) (vs : list Value) :
  txMode (conn w) = txNone →
  let r := executeContext client ToAttributeValue ToBool w s vs in
  conn r.1 = conn w ∧ heap r.1 = heap w
  ∧ ((Forall (λ v, (ToAttributeValue v).2 = None) vs
      ∧ ∃ input,
          Statement input = query s
          ∧ Parameters input = (λ v, (ToAttributeValue v).1) <$> vs
          ∧ Limit input = limit s ∧ InputNextToken input = None
          ∧ ConsistentRead input
            = FirstBool ToBool <$> match withOpts s !! "CONSISTENT_READ" with
                                   | Some o => Some o
                                   | None => withOpts s !! "CONSISTENTREAD"
                                   end
          ∧ calls r.1 = calls w ++ [CallExecuteStatement input]
          ∧ r.2 = (Some (WrapExecuted
                           {| stClient := Some client; stLimit := default 0%Z (limit s);
                              stInput := Some input;
                              stOutput := (ExecuteStatement client (calls w) input).1 |}),
                   (ExecuteStatement client (calls w) input).2))
     ∨ (∃ i v e0,
          vs !! i = Some v ∧ (ToAttributeValue v).2 = Some e0
          ∧ Forall (λ v, (ToAttributeValue v).2 = None) (take i vs)
          ∧ calls r.1 = calls w
          ∧ r.2 = (None, Some (Errorf ("error marshalling parameter " +:+ pretty (i + 1)
                                       +:+ "-th: " +:+ Error e0))))).
Proof.
  intros Hm r. subst r. unfold executeContext.
  rewrite bool_decide_eq_false_2 by (rewrite Hm; done).
  rewrite bool_decide_eq_false_2 by (rewrite Hm; intros H; by apply H).
  destruct (marshal ToAttributeValue executeError vs 0) as [params|e] eqn:Hmar; simpl.
  - split; [done|]. split; [done|]. left.
    apply marshal_inl in Hmar as [-> Hall]. split; [done|].
    eexists. split_and!; try reflexivity. all: try reflexivity.
    simpl. by destruct (withOpts s !! "CONSISTENT_READ"), (withOpts s !! "CONSISTENTREAD").
  - split; [done|]. split; [done|]. right.
    apply marshal_inr in Hmar as (i & v & e0 & Hi & He0 & -> & Hall).
    exists i, v, e0. done.
Qed.

End ConnRuns3.

Lemma transaction_round_trip_witness :
  (commit client_commits codec_example
     (executeAll client_commits codec_example ToBool_example (BeginTx newWorld).1
        calls_example).1).2 = Done None.
Proof.
  destruct (transaction_round_trip client_commits codec_example ToBool_example
              newWorld calls_example batch_example) as [H _];
    [reflexivity|discriminate|repeat constructor|reflexivity|exact H].
Defined.

Lemma executeContext_outside_tx_witness :
  heap (executeContext client_commits codec_example ToBool_example newWorld stmt_update
          [ValueString "a"]).1 = [].
Proof.
  destruct (executeContext_outside_tx client_commits codec_example ToBool_example
              newWorld stmt_update [ValueString "a"]) as (_ & H & _);
    [reflexivity|exact H].
Defined.

(** ** The options of a statement: the shape of the map *)

Lemma upper_byte_noLower (c : ascii) : isLower (strings.upper_byte c) = false.
Proof. destruct c as [[] [] [] [] [] [] [] []]; reflexivity. Qed.

Lemma noLower_rev_app (s1 s2 : string) :
  noLower (String.rev_app s1 s2) = noLower s1 && noLower s2.
Proof.
  revert s2. induction s1 as [|c s1 IH]; intros s2; simpl; [done|].
  rewrite IH. simpl. destruct (isLower c), (noLower s1), (noLower s2); reflexivity.
Qed.

Lemma noLower_rev (s : string) : noLower (String.rev s) = noLower s.
Proof. unfold String.rev. rewrite noLower_rev_app. simpl. apply andb_true_r. Qed.

Lemma noLower_TrimLeftSpace (s : string) :
  noLower s = true → noLower (strings.TrimLeftSpace s) = true.
Proof.
  induction s as [|c s IH]; simpl; [done|]. intros H.
  destruct (strings.asciiSpace c); [|done].
  apply andb_true_iff in H as [_ H]. auto.
Qed.

Lemma noLower_TrimSpace (s : string) :
  noLower s = true → noLower (strings.TrimSpace s) = true.
Proof.
  intros H. unfold strings.TrimSpace.
  rewrite noLower_rev. apply noLower_TrimLeftSpace.
  rewrite noLower_rev. by apply noLower_TrimLeftSpace.
Qed.

Lemma noLower_ToUpper_le (n : nat) :
  ∀ s, strings.len s ≤ n → noLower (strings.ToUpper s) = true.
Proof.
  induction n as [|n IH]; intros s Hn.
  - destruct s; [done|simpl in Hn; lia].
  - destruct s as [|c s]; [done|]. simpl in Hn.
    destruct s as [|c' s].
    + simpl. by rewrite upper_byte_noLower.
    + cbn [strings.ToUpper].
      destruct ((utf8.byte c =? 197)%N && (utf8.byte c' =? 191)%N)%bool.
      * cbn [noLower]. rewrite IH by (simpl in Hn; lia). reflexivity.
      * cbn [noLower]. rewrite upper_byte_noLower.
        change (noLower (strings.ToUpper (String c' s)) = true).
        apply IH. lia.
Qed.

Lemma noLower_ToUpper (s : string) : noLower (strings.ToUpper s) = true.
Proof. by apply (noLower_ToUpper_le (strings.len s)). Qed.

(** What the loop of [parseWithOpts] keeps: a key has no lower-case letter,
    and its list holds at least one value and at most one for every nine
    bytes of the text parsed. *)
Lemma parseWithOpts_loop_shape (fuel : nat) :
  ∀ (s : string) (m m' : gmap string OptStrings) (b : nat),
    parseWithOpts_loop fuel s m = Done m' →
    strings.len s ≤ b →
    (∀ k l, m !! k = Some l →
       noLower k = true ∧ l ≠ [] ∧ 9 * length l + strings.len s ≤ b) →
    ∀ k l, m' !! k = Some l → noLower k = true ∧ l ≠ [] ∧ 9 * length l ≤ b.
Proof.
  induction fuel as [|fuel IH]; intros s m m' b Hrun Hs Hm; [done|]. simpl in Hrun.
  destruct (FindStringSubmatch reWithOpts 3 s) as [matches|] eqn:E.
  - apply FindStringSubmatch_len in E as [Hmin Hmax]. rewrite min_len_reWithOpts in Hmin.
    unfold strings.slice_from in Hrun. rewrite (proj2 (Nat.leb_le _ _) Hmax) in Hrun.
    simpl in Hrun. eapply IH; [exact Hrun|rewrite len_drop; lia|].
    intros k l. unfold addOpt, opts. rewrite len_drop.
    set (key := strings.TrimSpace (strings.ToUpper (StringAt matches 2))).
    destruct (decide (key = k)) as [<-|Hne].
    + rewrite lookup_insert_eq. intros [= <-].
      split; [apply noLower_TrimSpace, noLower_ToUpper|].
      split; [by destruct (default [] (m !! key))|].
      rewrite length_app. simpl.
      destruct (m !! key) as [l0|] eqn:Hk; simpl.
      * destruct (Hm _ _ Hk) as (_ & _ & Hb). lia.
      * lia.
    + rewrite lookup_insert_ne by done. intros Hk.
      destruct (Hm _ _ Hk) as (? & ? & ?). split_and!; try done. lia.
  - injection Hrun as <-. intros k l Hk. destruct (Hm _ _ Hk) as (? & ? & ?).
    split_and!; try done. lia.
Qed.

(** X13.  The option parser returns a map on every text.  No key of the map
    has a lower-case ASCII letter, so that an option is found under its name
    in upper case only; the list of a key is never empty and has at most one
    value for every nine bytes of the text; a text of fewer than nine bytes
    gives the empty map. *)
Theorem parseWithOpts_shape (s : string) :
  ∃ m, parseWithOpts s = Done m
       ∧ (∀ k l, m !! k = Some l →
            noLower k = true ∧ l ≠ [] ∧ 9 * length l ≤ strings.len s)
       ∧ (strings.len s < 9 → m = ∅).
Proof.
  destruct (parseWithOpts_total s) as [m Hm]. exists m. split; [done|].
  assert (∀ k l, m !! k = Some l →
            noLower k = true ∧ l ≠ [] ∧ 9 * length l ≤ strings.len s) as H.
  { apply (parseWithOpts_loop_shape _ s ∅ m (strings.len s) Hm); [done|].
    intros k l Hk. by rewrite lookup_empty in Hk. }
  split; [done|]. intros Hs. apply map_empty. intros k.
  destruct (m !! k) as [l|] eqn:Hk; [|done].
  destruct (H k l Hk) as (_ & Hl & Hb). destruct l; [done|]. simpl in Hb. lia.
Qed.

Lemma parseWithOpts_shape_witness : parseWithOpts "WITH a=b" = Done ∅.
Proof.
  destruct (parseWithOpts_shape "WITH a=b") as (m & Hm & _ & He).
  rewrite Hm. f_equal. apply He. simpl. lia.
Defined.

(** ** CREATE TABLE: from the options to the request *)

Section CreateTableRequest.

Variable dataTypes : gmap string string.
Variable keyTypes : gmap string string.

(** X14.  The request of a CREATE TABLE statement that [parse] accepted,
    read from its options.  [Exec] makes one call, for the table of the
    statement.  The key schema is the partition key, whose name is not
    empty, followed by the sort key when the SK option names one.  The
    attribute definitions are those of the key schema followed by one for
    every value of the LSI option, and the request has one index for every
    such value, both in the order of the options. *)
Theorem Exec_request_of_parsed (client : Client) (q : string) (ifne : bool)
    (table o : string) (s : StmtCreateTable) (log : list call) :
  parse dataTypes (newStmtCreateTable q ifne table o) = Done (s, None) →
  ∃ m input,
    parseWithOpts o = Done m
    ∧ (Exec dataTypes keyTypes client s log).2 = log ++ [CallCreateTable input]
    ∧ TableName input = table
    ∧ keyName (FirstString (opts m "PK")) ≠ ""
    ∧ KeyAttributeName <$> KeySchema input
      = keyName (FirstString (opts m "PK"))
        :: (if bool_decide (keyName (FirstString (opts m "SK")) ≠ "")
            then [keyName (FirstString (opts m "SK"))] else [])
    ∧ AttributeName <$> AttributeDefinitions input
      = (KeyAttributeName <$> KeySchema input)
        ++ ((λ v, fieldName (lsiOf v)) <$> opts m "LSI")
    ∧ IndexName <$> LocalSecondaryIndexes input
      = (λ v, indexName (lsiOf v)) <$> opts m "LSI".
Proof.
  intros Hp.
  destruct (parse_fresh dataTypes q ifne table o)
    as (m & s' & Hm & Hp' & _ & Ht & _ & Hpk & _ & Hrest).
  rewrite Hp in Hp'. injection Hp' as <- Hchk. symmetry in Hchk.
  destruct (Hrest Hchk) as (Hsk & _ & Hlsi & Hrcu & Hwcu).
  destruct (parseChecks_None dataTypes m Hchk) as (Hne & _).
  exists m, (createTableInput dataTypes keyTypes s).
  split; [done|]. split; [reflexivity|]. split; [done|]. split; [done|].
  unfold createTableInput. cbn [KeySchema AttributeDefinitions LocalSecondaryIndexes].
  rewrite Hsk, Hpk, Hlsi.
  split.
  { by case_bool_decide. }
  split.
  { case_bool_decide; rewrite !fmap_app; simpl; rewrite <- !list_fmap_compose; done. }
  rewrite <- !list_fmap_compose. done.
Qed.

End CreateTableRequest.

Lemma Exec_request_of_parsed_witness :
  ∃ input,
    (Exec dataTypes_spec keyTypes_example client_table_exists stmt_unnamed_lsi []).2
    = [CallCreateTable input].
Proof.
  destruct (Exec_request_of_parsed dataTypes_spec keyTypes_example client_table_exists
              "CREATE TABLE t WITH PK=id:STRING, WITH LSI=:f:FOO" false "t"
              " WITH PK=id:STRING, WITH LSI=:f:FOO" stmt_unnamed_lsi [])
    as (m & input & _ & H & _).
  - vm_compute. reflexivity.
  - exists input. exact H.
Defined.
